(** * PyChemistry: the elemental speller and the molecular-mass scan

    A shallow embedding of [pychemistry/PeriodicTable.py]: the spelling
    graph ([Graph], [build_spelling_graph]), the path enumeration
    ([find_all_paths]), [spell] with its [functools.cache] wrapper, and the
    linear scan of [PeriodicTable.calculate_relative_molecular_mass].

    Modelling conventions.
    - A Python [str] is a [string] of 8-bit characters, read as the code
      points U+0000 to U+00FF; a character above U+007F is written by its
      code, as in ["178"%char] for the superscript two.  The scan of a
      formula tests characters with [str.islower] and [str.isdigit] and
      converts them with [int]; these are modelled on all 256 characters
      ([Py.str_islower], [Py.str_isdigit], [Py.int]).  [Py.lower] and
      [Py.capitalize] change the letters [a-z] and [A-Z] only: on a glyph
      of one or two of the 256 characters this gives a member of
      [ELEMENTS] exactly when [str.capitalize] does, which is all
      [spell] uses it for.
    - A Python [set] is a [gset].  The order in which Python iterates
      over a set is not specified; the model takes it as a parameter, a
      [SetOrder], and every result holds for every such order.
    - A [defaultdict(set)] is a [gmap] to [gset]; reading a missing key
      yields the empty set and stores it under that key.
    - The interpreter's recursion limit and the two [print] calls of
      [spell] are outside the model. *)

From Stdlib Require Import Ascii String.
From stdpp Require Import gmap strings list sorting.
From Equations Require Import Equations.

Set Default Proof Using "Type".
Set Warnings "-clear-no-such-hyp".

(** ** Characters and strings *)

Module Py.

(** The letters [a-z]. *)
Definition islower (c : ascii) : bool :=
  (97 <=? nat_of_ascii c) && (nat_of_ascii c <=? 122).

(** The letters [A-Z]. *)
Definition isupper (c : ascii) : bool :=
  (65 <=? nat_of_ascii c) && (nat_of_ascii c <=? 90).

(** The characters of ['1234567890'], the digits [spell] deletes. *)
Definition isdigit (c : ascii) : bool :=
  (48 <=? nat_of_ascii c) && (nat_of_ascii c <=? 57).

(** [c.islower()] for a one-character string: the letters [a-z], the
    ordinal indicators U+00AA and U+00BA, the micro sign U+00B5, and the
    letters U+00DF to U+00FF without the division sign U+00F7. *)
Definition str_islower (c : ascii) : bool :=
  let n := nat_of_ascii c in
  ((97 <=? n) && (n <=? 122))
  || (n =? 170) || (n =? 181) || (n =? 186)
  || ((223 <=? n) && (n <=? 246)) || ((248 <=? n) && (n <=? 255)).

(** [c.isdigit()] for a one-character string: the digits [0-9] and the
    superscripts two, three and one (U+00B2, U+00B3, U+00B9). *)
Definition str_isdigit (c : ascii) : bool :=
  let n := nat_of_ascii c in
  ((48 <=? n) && (n <=? 57)) || (n =? 178) || (n =? 179) || (n =? 185).

(** [int(c)] for a one-character string: the value of a digit [0-9];
    for any other character [int] raises [ValueError], here [None]. *)
Definition int (c : ascii) : option Z :=
  if isdigit c then Some (Z.of_nat (nat_of_ascii c - 48)) else None.

Definition upper_char (c : ascii) : ascii :=
  if islower c then ascii_of_nat (nat_of_ascii c - 32) else c.

Definition lower_char (c : ascii) : ascii :=
  if isupper c then ascii_of_nat (nat_of_ascii c + 32) else c.

(** [s.lower()], on the letters [A-Z]. *)
Fixpoint lower (s : string) : string :=
  match s with
  | EmptyString => EmptyString
  | String c r => String (lower_char c) (lower r)
  end.

(** [s.capitalize()]: first character upper-cased, the rest lower-cased,
    on the letters [a-z] and [A-Z]. *)
Definition capitalize (s : string) : string :=
  match s with
  | EmptyString => EmptyString
  | String c r => String (upper_char c) (lower r)
  end.

(** [word.replace(d, '')] for a one-character [d]: every occurrence of
    [d] is deleted. *)
Fixpoint replace_by_empty (d : ascii) (word : string) : string :=
  match word with
  | EmptyString => EmptyString
  | String c r =>
      if decide (c = d) then replace_by_empty d r
      else String c (replace_by_empty d r)
  end.

(** [''.join(parts)] *)
Definition join (parts : list string) : string :=
  foldr String.append EmptyString parts.

End Py.

(** ** The symbol table *)

Definition ELEMENTS : list string :=
  [ "H"; "He"; "Li"; "Be"; "B"; "C"; "N"; "O"; "F"; "Ne"; "Na"; "Mg"; "Al";
    "Si"; "P"; "S"; "Cl"; "Ar"; "K"; "Ca"; "Sc"; "Ti"; "V"; "Cr"; "Mn"; "Fe";
    "Co"; "Ni"; "Cu"; "Zn"; "Ga"; "Ge"; "As"; "Se"; "Br"; "Kr"; "Rb"; "Sr"; "Y";
    "Zr"; "Nb"; "Mo"; "Tc"; "Ru"; "Rh"; "Pd"; "Ag"; "Cd"; "In"; "Sn"; "Sb";
    "Te"; "I"; "Xe"; "Cs"; "Ba"; "La"; "Ce"; "Pr"; "Nd"; "Pm"; "Sm"; "Eu"; "Gd";
    "Tb"; "Dy"; "Ho"; "Er"; "Tm"; "Yb"; "Lu"; "Hf"; "Ta"; "W"; "Re"; "Os"; "Ir";
    "Pt"; "Au"; "Hg"; "Tl"; "Pb"; "Bi"; "Po"; "At"; "Rn"; "Fr"; "Ra"; "Ac";
    "Th"; "Pa"; "U"; "Np"; "Pu"; "Am"; "Cm"; "Bk"; "Cf"; "Es"; "Fm"; "Md"; "No";
    "Lr"; "Rf"; "Db"; "Sg"; "Bh"; "Hs"; "Mt"; "Ds"; "Rg"; "Cn"; "Nh"; "Fl";
    "Mc"; "Lv"; "Ts"; "Og" ].

(** ** Nodes and the graph *)

(** [Node = namedtuple('Node', ['value', 'position'])] *)
Record Node : Type := mkNode { value : string; position : nat }.

Global Instance Node_eq_dec : EqDecision Node.
Proof. solve_decision. Defined.

Global Instance Node_countable : Countable Node :=
  inj_countable' (λ n, (value n, position n)) (λ p, mkNode p.1 p.2)
    (λ n, match n with mkNode _ _ => eq_refl end).

(** A [defaultdict(set)] keyed by a node or [None]. *)
Abbreviation NodeDict := (gmap (option Node) (gset Node)).

(** [d[k]] on a [defaultdict(set)]: the set read, and the dictionary with
    the key now present. *)
Definition dd_get (k : option Node) (d : NodeDict) : gset Node * NodeDict :=
  let s := default ∅ (d !! k) in (s, <[k := s]> d).

(** [d[k].add(v)] *)
Definition dd_add (k : option Node) (v : Node) (d : NodeDict) : NodeDict :=
  <[k := default ∅ (d !! k) ∪ {[v]}]> d.

Record Graph : Type := mkGraph {
  _parents_of : NodeDict;
  _children_of : NodeDict
}.

(** [Graph()] *)
Definition Graph_init : Graph := mkGraph ∅ ∅.

(** [Graph.firsts] and [Graph.lasts] *)
Definition firsts (g : Graph) : gset Node * Graph :=
  let '(s, d) := dd_get None (_children_of g) in (s, mkGraph (_parents_of g) d).

Definition lasts (g : Graph) : gset Node * Graph :=
  let '(s, d) := dd_get None (_parents_of g) in (s, mkGraph d (_children_of g)).

(** [Graph.add_edge]: [None] is accepted as a key of either dictionary but
    is never stored as a member of a set. *)
Definition add_edge (parent child : option Node) (g : Graph) : Graph :=
  let g1 :=
    match parent with
    | Some p => mkGraph (dd_add child p (_parents_of g)) (_children_of g)
    | None => g
    end in
  match child with
  | Some c => mkGraph (_parents_of g1) (dd_add parent c (_children_of g1))
  | None => g1
  end.

(** [Graph.edges]: the pairs of the children dictionary, listed in some
    order. *)
Definition edges (g : Graph) : list (option Node * Node) :=
  '(parent, cs) ← map_to_list (_children_of g);
  (λ child, (parent, child)) <$> elements cs.

(** ** Building the graph *)

(** The state [pop_root] closes over: the graph and the [processed] set. *)
Record Build : Type := mkBuild { graph : Graph; processed : gset string }.

Definition on_graph (f : Graph → Graph) (b : Build) : Build :=
  mkBuild (f (graph b)) (processed b).

Section build.
Variable symbols : list string.

(** [pop_root(remaining, position, previous_root)].  The pattern
    [String c1 rest1] binds [remaining[0]] and [remaining[1:]]; the inner
    pattern [String c2 rest2] is the test [len(remaining) >= 2] and binds
    [remaining[2:]]. *)
Fixpoint pop_root (remaining : string) (position : nat)
    (previous_root : option Node) (b : Build) : Build :=
  match remaining with
  | EmptyString => on_graph (add_edge previous_root None) b
  | String c1 rest1 =>
      let single_root := mkNode (String c1 EmptyString) position in
      let b :=
        if decide (Py.capitalize (value single_root) ∈ symbols) then
          let b := on_graph (add_edge previous_root (Some single_root)) b in
          if decide (remaining ∉ processed b) then
            pop_root rest1 (position + 1) (Some single_root) b
          else b
        else b in
      let b :=
        match rest1 with
        | String c2 rest2 =>
            let double_root :=
              mkNode (String c1 (String c2 EmptyString)) position in
            if decide (Py.capitalize (value double_root) ∈ symbols) then
              let b :=
                on_graph (add_edge previous_root (Some double_root)) b in
              if decide (remaining ∉ processed b) then
                pop_root rest2 (position + 2) (Some double_root) b
              else b
            else b
        | EmptyString => b
        end in
      mkBuild (graph b) (processed b ∪ {[remaining]})
  end.

(** [build_spelling_graph(word, graph, symbols)]: the graph passed in is
    the one returned, extended. *)
Definition build_spelling_graph (word : string) (g : Graph) : Graph :=
  graph (pop_root word 0 None (mkBuild g ∅)).

End build.

(** ** Enumerating the paths *)

(** The order in which sets are iterated: some enumeration of the
    members of each set. *)
Record SetOrder : Type := mkSetOrder {
  iter : gset Node → list Node;
  iter_perm : ∀ X, iter X ≡ₚ elements X
}.

(** One such order. *)
Definition elements_order : SetOrder := mkSetOrder elements (λ X, reflexivity _).

(** The termination measure of [find_all_paths]: the keys of the dictionary
    not yet on the path, counted twice, plus one step for a start node the
    path does not hold yet. *)
Definition paths_measure (ptc : NodeDict) (start : Node) (path : list Node) : nat :=
  2 * size (dom ptc ∖ list_to_set (Some <$> path))
  + (if decide (start ∈ path) then 2 else 1).

Lemma paths_measure_decr (ptc : NodeDict) start node path cs :
  ptc !! Some start = Some cs →
  node ∉ path ++ [start] →
  paths_measure ptc node (path ++ [start]) < paths_measure ptc start path.
Proof.
  intros Hk Hn. unfold paths_measure.
  rewrite (decide_False (P := node ∈ path ++ [start])) by done.
  rewrite fmap_app, list_to_set_app_L. simpl.
  set (seen := list_to_set (Some <$> path) : gset (option Node)).
  assert (Some start ∈ seen ↔ start ∈ path) as Hseen.
  { unfold seen. rewrite elem_of_list_to_set, list_elem_of_fmap.
    split; [intros (y & [= ->] & ?); done | eauto]. }
  assert (Some start ∈ dom ptc) as Hdom by (apply elem_of_dom; eauto).
  destruct (decide (start ∈ path)) as [Hin|Hout].
  - apply Hseen in Hin.
    replace (dom ptc ∖ (seen ∪ ({[Some start]} ∪ ∅))) with (dom ptc ∖ seen);
      [lia|].
    apply set_eq. intros x. rewrite !elem_of_difference, !elem_of_union,
      elem_of_singleton, elem_of_empty. naive_solver.
  - assert (dom ptc ∖ (seen ∪ ({[Some start]} ∪ ∅)) ⊂ dom ptc ∖ seen) as Hs.
    { split.
      - intros x. rewrite !elem_of_difference, !elem_of_union. naive_solver.
      - intros Hsub. specialize (Hsub (Some start)).
        rewrite !elem_of_difference, !elem_of_union, elem_of_singleton in Hsub.
        naive_solver. }
    apply subset_size in Hs. lia.
Qed.

(** [find_all_paths(parents_to_children, start, end, path)].  The inner
    loop appends the paths of every child not yet on the path, in the
    iteration order of the child set. *)
Equations find_all_paths (o : SetOrder) (ptc : NodeDict) (start end_ : Node)
    (path : list Node) : list (list Node) by wf (paths_measure ptc start path) lt :=
  find_all_paths o ptc start end_ path with decide (start = end_) := {
    | left _ => [path ++ [start]]
    | right _ with Equations.Prop.Logic.inspect (ptc !! Some start) := {
        | exist _ None _ => []
        | exist _ (Some cs) Hk =>
            node ← iter o cs;
            match decide (node ∈ path ++ [start]) with
            | left _ => []
            | right Hn => find_all_paths o ptc node end_ (path ++ [start])
            end } }.
Next Obligation. intros. eapply paths_measure_decr; eauto. Qed.

(** ** Sorting tuples of strings *)

(** Python orders strings by code point, lexicographically, and tuples
    lexicographically by their components. *)
Fixpoint tuple_compare (s t : list string) : comparison :=
  match s, t with
  | [], [] => Eq
  | [], _ :: _ => Lt
  | _ :: _, [] => Gt
  | a :: s', b :: t' =>
      match String.compare a b with
      | Eq => tuple_compare s' t'
      | c => c
      end
  end.

Definition tuple_lt (s t : list string) : Prop := tuple_compare s t = Lt.

(** [t <= s], the order in which [sorted(..., reverse=True)] places [s]
    before [t]. *)
Definition tuple_ge (s t : list string) : Prop := tuple_compare s t ≠ Lt.

Global Instance tuple_ge_dec : RelDecision tuple_ge.
Proof. intros s t. unfold tuple_ge. apply _. Defined.

(** [sorted(l, reverse=True)]: a merge sort into descending order. *)
Definition sorted_reverse (l : list (list string)) : list (list string) :=
  merge_sort tuple_ge l.

(** ** spell *)

(** The loop [for digit in digits: word = word.replace(digit, '')]. *)
Definition strip_digits (word : string) : string :=
  foldl (λ word digit, Py.replace_by_empty digit word) word
    (list_ascii_of_string "1234567890").

(** [tuple(node.value.capitalize() for node in path)] *)
Definition render (path : list Node) : list string :=
  (λ node, Py.capitalize (value node)) <$> path.

(** [spell(word, symbols)], the function under [@cache].  A call
    [spell(word)] is [spell o word ELEMENTS], with [o] the set order of
    the run.  The graph is built by
    [build_spelling_graph(word, g)], that is with the default symbol table:
    the [symbols] argument is not passed on. *)
Definition spell (o : SetOrder) (word : string) (symbols : list string)
    : list (list string) :=
  let word := strip_digits word in
  let g := build_spelling_graph ELEMENTS word Graph_init in
  let '(fs, g) := firsts g in
  sorted_reverse (
    first ← iter o fs;
    last ← iter o (lasts g).1;
    path ← find_all_paths o (_children_of (lasts g).2) first last [];
    [render path]).

(** ** The cache of [spell] *)

(** [functools.cache] keys a call by its arguments: the word, and the
    symbols when they are passed (then a hashable collection).  The cache
    starts empty and lives as long as the process. *)
Abbreviation SpellCache :=
  (gmap (string * option (list string)) (list (list string))).

Definition spell_args (o : SetOrder) (key : string * option (list string))
    : list (list string) :=
  spell o key.1 (default ELEMENTS key.2).

(** One call of the decorated [spell]: a hit returns the stored result, a
    miss runs the function and stores what it returned. *)
Definition cached_spell (o : SetOrder) (key : string * option (list string))
    (cache : SpellCache) : list (list string) * SpellCache :=
  match cache !! key with
  | Some result => (result, cache)
  | None => let result := spell_args o key in (result, <[key := result]> cache)
  end.

(** A sequence of calls against one cache, with the results in order. *)
Fixpoint cached_spell_calls (o : SetOrder)
    (keys : list (string * option (list string))) (cache : SpellCache)
    : list (list (list string)) * SpellCache :=
  match keys with
  | [] => ([], cache)
  | key :: keys =>
      let '(result, cache) := cached_spell o key cache in
      let '(results, cache) := cached_spell_calls o keys cache in
      (result :: results, cache)
  end.

(** ** PeriodicTable *)

Module PeriodicTable.

Record ElementInfo : Type := mkElementInfo {
  name : string;
  atomic_number : Z;
  outer_layout_electron_conf : string;
  relative_atomic_mass : Z
}.

(** [self.mendeleev_table] *)
Definition mendeleev_table : gmap string ElementInfo :=
  <["H" := mkElementInfo "Водород / Hydrogen" 1 "1s^1" 1]>
  (<["Li" := mkElementInfo "Литий / Lithium" 3 "2s^1" 7]>
  (<["Be" := mkElementInfo "Бериллий / Beryllium" 4 "2s^2" 9]> ∅)).

(** The exceptions the scan can raise: the [KeyError] of a lookup, with
    its key, and the [ValueError] of [int], with the literal it rejects. *)
Inductive Exception : Type :=
| KeyError (key : string)
| ValueError (literal : string).

(** [get_relative_atomic_mass]: the [KeyError] of the lookup is caught
    and turned into [0]. *)
Definition get_relative_atomic_mass (element : string) : Z :=
  match mendeleev_table !! element with
  | Some info => relative_atomic_mass info
  | None => 0
  end.

(** [formule[i]], read only under the guard [i < len(formule)]. *)
Definition char_at (formule : string) (i : nat) : ascii :=
  default "000"%char (String.get i formule).

(** The first [if] of the loop body: the element symbol and the index
    after it has been read. *)
Definition scan_element (formule : string) (i : nat) : string * nat :=
  let element := String (char_at formule i) EmptyString in
  if (i + 1 <? String.length formule)
     && Py.str_islower (char_at formule (i + 1))
  then (element +:+ String (char_at formule (i + 1)) EmptyString, i + 1)
  else (element, i).

(** The second [if]: the count and the index after it has been read, or
    the [ValueError] of [int] on a character that [isdigit] accepts and
    [int] does not. *)
Definition scan_count (formule : string) (i : nat) : Exception + Z * nat :=
  if (i + 1 <? String.length formule)
     && Py.str_isdigit (char_at formule (i + 1))
  then
    match Py.int (char_at formule (i + 1)) with
    | Some count => inr (count, i + 1)
    | None => inl (ValueError (String (char_at formule (i + 1)) EmptyString))
    end
  else inr (1%Z, i).

Lemma scan_element_le formule i : i ≤ (scan_element formule i).2.
Proof. unfold scan_element. case_match; simpl; lia. Qed.

Lemma scan_count_le formule i count j :
  scan_count formule i = inr (count, j) → i ≤ j.
Proof.
  unfold scan_count. repeat case_match; intros [= <- <-] || intros [=]; lia.
Qed.

Lemma scan_next_lt formule i count j :
  i < String.length formule →
  scan_count formule (scan_element formule i).2 = inr (count, j) →
  String.length formule - (j + 1) < String.length formule - i.
Proof.
  intros Hi Hc. pose proof (scan_element_le formule i).
  pose proof (scan_count_le _ _ _ _ Hc). lia.
Qed.

(** The [while] loop, from index [i] with the running [total_mass]: the
    element symbol is read, then its count, and only then is the symbol
    looked up.  The mass is a Python float holding a sum of products of
    integers; it is kept here as the integer it represents. *)
Equations mass_loop (formule : string) (i : nat) (total_mass : Z)
    : Exception + Z by wf (String.length formule - i) lt :=
  mass_loop formule i total_mass with decide (i < String.length formule) := {
    | right _ => inr total_mass
    | left _ with
        Equations.Prop.Logic.inspect
          (scan_count formule (scan_element formule i).2) := {
        | exist _ (inl e) _ => inl e
        | exist _ (inr (count, j)) _ =>
            match mendeleev_table !! (scan_element formule i).1 with
            | None => inl (KeyError (scan_element formule i).1)
            | Some info =>
                mass_loop formule (j + 1)
                  (total_mass + relative_atomic_mass info * count)
            end } }.
Next Obligation.
  intros. eapply scan_next_lt; eauto.
Qed.

(** [calculate_relative_molecular_mass]: the handler
    [except Exception as e: raise e] hands the exception on as it is. *)
Definition calculate_relative_molecular_mass (formule : string)
    : Exception + Z :=
  match mass_loop formule 0 0 with
  | inl e => inl e
  | inr total_mass => inr total_mass
  end.

(** The terms the scan reads from index [i] on when no lookup stops it:
    every element symbol with what reading its count gives.  The scan
    ends at a count that [int] rejects. *)
Equations scanned_terms (formule : string) (i : nat)
    : list (string * (Exception + Z)) by wf (String.length formule - i) lt :=
  scanned_terms formule i with decide (i < String.length formule) := {
    | right _ => []
    | left _ with
        Equations.Prop.Logic.inspect
          (scan_count formule (scan_element formule i).2) := {
        | exist _ (inl e) _ => [((scan_element formule i).1, inl e)]
        | exist _ (inr (count, j)) _ =>
            ((scan_element formule i).1, inr count)
            :: scanned_terms formule (j + 1) } }.
Next Obligation.
  intros. eapply scan_next_lt; eauto.
Qed.

(** The element symbols the scan reads from index [i] on when no lookup
    stops it. *)
Definition scanned_elements (formule : string) (i : nat) : list string :=
  (scanned_terms formule i).*1.

End PeriodicTable.

(** ** What a spelling is *)

(** A glyph is a valid token when it has one or two characters and its
    capitalized form is one of the symbols. *)
Definition valid_glyph (symbols : list string) (glyph : string) : Prop :=
  (String.length glyph = 1 ∨ String.length glyph = 2)
  ∧ Py.capitalize glyph ∈ symbols.

(** A partition of the word: its glyphs, read left to right, are valid
    tokens and make up the whole word. *)
Definition is_partition (symbols : list string) (word : string)
    (glyphs : list string) : Prop :=
  Py.join glyphs = word ∧ Forall (valid_glyph symbols) glyphs.

(** A spelling of the word: the canonical symbols of one of its partitions. *)
Definition is_spelling (symbols : list string) (word : string)
    (spelling : list string) : Prop :=
  ∃ glyphs, is_partition symbols word glyphs
            ∧ spelling = Py.capitalize <$> glyphs.

(** The word with every digit character left out. *)
Fixpoint without_digits (word : string) : string :=
  match word with
  | EmptyString => EmptyString
  | String c r =>
      if Py.isdigit c then without_digits r else String c (without_digits r)
  end.


(** * Verification *)

(** ** The model at work *)

Example spell_h : spell elements_order "h" ELEMENTS = [["H"]].
Proof. by vm_compute. Qed.

Example spell_bacon :
  spell elements_order "bacon" ELEMENTS
  = [["Ba"; "Co"; "N"]; ["Ba"; "C"; "O"; "N"]; ["B"; "Ac"; "O"; "N"]].
Proof. by vm_compute. Qed.

Example spell_because :
  spell elements_order "because" ELEMENTS
  = [["Be"; "Ca"; "U"; "Se"]; ["Be"; "C"; "Au"; "Se"]].
Proof. by vm_compute. Qed.

Example edges_nos :
  edges (build_spelling_graph ELEMENTS "nos" Graph_init)
  ≡ₚ [ (None, mkNode "n" 0); (None, mkNode "no" 0);
       (Some (mkNode "n" 0), mkNode "o" 1); (Some (mkNode "n" 0), mkNode "os" 1);
       (Some (mkNode "o" 1), mkNode "s" 2); (Some (mkNode "no" 0), mkNode "s" 2) ].
Proof. apply (bool_decide_unpack _). by vm_compute. Qed.

Example mass_LiH2Be :
  PeriodicTable.calculate_relative_molecular_mass "LiH2Be" = inr 18%Z.
Proof. by vm_compute. Qed.

(** A superscript two after a symbol passes [isdigit] and fails [int]; a
    micro sign after a symbol passes [islower] and is part of the key. *)
Example mass_H_superscript :
  PeriodicTable.calculate_relative_molecular_mass (String "H" (String "178" ""))
  = inl (PeriodicTable.ValueError (String "178" "")).
Proof. by vm_compute. Qed.

Example mass_H_micro :
  PeriodicTable.calculate_relative_molecular_mass (String "H" (String "181" ""))
  = inl (PeriodicTable.KeyError (String "H" (String "181" ""))).
Proof. by vm_compute. Qed.

(** ** Strings *)

(** [s[n:]] *)
Fixpoint string_drop (n : nat) (s : string) : string :=
  match n, s with
  | S n, String _ r => string_drop n r
  | _, _ => s
  end.

Lemma string_app_nil (s : string) : "" +:+ s = s.
Proof. reflexivity. Qed.

Lemma string_app_cons c (s t : string) : String c s +:+ t = String c (s +:+ t).
Proof. reflexivity. Qed.

Lemma string_app_length (s t : string) :
  String.length (s +:+ t) = String.length s + String.length t.
Proof.
  induction s as [|c s IH]; [done|].
  rewrite string_app_cons. simpl. by rewrite IH.
Qed.

Lemma string_app_inj (a a' b b' : string) :
  String.length a = String.length a' → a +:+ b = a' +:+ b' → a = a' ∧ b = b'.
Proof.
  revert a'. induction a as [|c a IH]; intros [|c' a'] Hlen Heq;
    try discriminate; [done|].
  rewrite !string_app_cons in Heq. injection Heq as -> Heq.
  destruct (IH a') as [-> ->]; [simpl in Hlen; lia|done|done].
Qed.

Lemma string_length_zero (s : string) : String.length s = 0 → s = "".
Proof. by destruct s. Qed.

Lemma string_drop_0 (s : string) : string_drop 0 s = s.
Proof. by destruct s. Qed.

Lemma string_drop_length n (s : string) :
  String.length (string_drop n s) = String.length s - n.
Proof.
  revert s. induction n as [|n IH]; intros [|c s]; simpl; auto.
Qed.

Lemma string_drop_drop n m (s : string) :
  string_drop n (string_drop m s) = string_drop (m + n) s.
Proof.
  revert s. induction m as [|m IH]; intros s.
  - by rewrite string_drop_0.
  - destruct s as [|c s]; simpl; [by destruct n|apply IH].
Qed.

Lemma string_drop_app (a b : string) : string_drop (String.length a) (a +:+ b) = b.
Proof.
  induction a as [|c a IH]; [apply string_drop_0|].
  rewrite string_app_cons. exact IH.
Qed.

Lemma string_drop_cons n (s : string) c r :
  string_drop n s = String c r → string_drop (n + 1) s = r.
Proof.
  intros H. rewrite <- string_drop_drop, H. apply string_drop_0.
Qed.

Lemma string_drop_lt n (s : string) c r :
  string_drop n s = String c r → n < String.length s.
Proof.
  intros H. pose proof (string_drop_length n s) as Hl.
  rewrite H in Hl. simpl in Hl. lia.
Qed.

Lemma string_drop_inj n m (s : string) :
  n ≤ String.length s → m ≤ String.length s →
  string_drop n s = string_drop m s → n = m.
Proof.
  intros Hn Hm H. pose proof (string_drop_length n s) as H1.
  pose proof (string_drop_length m s) as H2. rewrite H in H1. lia.
Qed.

Lemma lower_char_upper_char c : Py.lower_char (Py.upper_char c) = Py.lower_char c.
Proof. by destruct c as [[] [] [] [] [] [] [] []]. Qed.

Lemma lower_char_idemp c : Py.lower_char (Py.lower_char c) = Py.lower_char c.
Proof. by destruct c as [[] [] [] [] [] [] [] []]. Qed.

Lemma lower_idemp (s : string) : Py.lower (Py.lower s) = Py.lower s.
Proof.
  induction s as [|c s IH]; [done|]. simpl. by rewrite lower_char_idemp, IH.
Qed.

Lemma lower_capitalize (s : string) : Py.lower (Py.capitalize s) = Py.lower s.
Proof.
  destruct s as [|c s]; [done|]. simpl.
  by rewrite lower_char_upper_char, lower_idemp.
Qed.

Lemma lower_app (s t : string) : Py.lower (s +:+ t) = Py.lower s +:+ Py.lower t.
Proof.
  induction s as [|c s IH]; [done|].
  rewrite string_app_cons. simpl. by rewrite IH.
Qed.

Lemma lower_length (s : string) : String.length (Py.lower s) = String.length s.
Proof. induction s as [|c s IH]; simpl; congruence. Qed.

Lemma capitalize_length (s : string) :
  String.length (Py.capitalize s) = String.length s.
Proof. destruct s; simpl; [done|]. by rewrite lower_length. Qed.

Lemma join_cons g (glyphs : list string) :
  Py.join (g :: glyphs) = g +:+ Py.join glyphs.
Proof. reflexivity. Qed.

Global Arguments Py.join : simpl never.

Lemma lower_join_capitalize (glyphs : list string) :
  Py.lower (Py.join (Py.capitalize <$> glyphs)) = Py.lower (Py.join glyphs).
Proof.
  induction glyphs as [|g glyphs IH]; [done|].
  rewrite fmap_cons, !join_cons, !lower_app, lower_capitalize. by rewrite IH.
Qed.

(** Digit stripping, one digit after the other, removes exactly the digit
    characters. *)
Lemma replace_by_empty_comm d e (s : string) :
  Py.replace_by_empty d (Py.replace_by_empty e s)
  = Py.replace_by_empty e (Py.replace_by_empty d s).
Proof.
  induction s as [|c s IH]; [done|]. simpl.
  repeat (case_decide; simpl); congruence.
Qed.

Lemma isdigit_spec c :
  Py.isdigit c = bool_decide (c ∈ list_ascii_of_string "1234567890").
Proof. by destruct c as [[] [] [] [] [] [] [] []]. Qed.

Lemma strip_digits_cons c (s : string) :
  strip_digits (String c s)
  = if Py.isdigit c then strip_digits s else String c (strip_digits s).
Proof.
  rewrite isdigit_spec. unfold strip_digits.
  generalize (list_ascii_of_string "1234567890"). intros ds. revert c s.
  induction ds as [|d ds IH]; intros c s; [done|].
  simpl. destruct (decide (c = d)) as [->|Hne].
  - rewrite bool_decide_eq_true_2 by left. done.
  - rewrite IH. destruct (bool_decide (c ∈ ds)) eqn:E.
    + apply bool_decide_eq_true in E.
      rewrite bool_decide_eq_true_2 by (by right). done.
    + apply bool_decide_eq_false in E.
      rewrite bool_decide_eq_false_2; [done|].
      intros [?|?]%elem_of_cons; done.
Qed.

Lemma strip_digits_nil : strip_digits "" = "".
Proof. reflexivity. Qed.

Lemma strip_digits_without_digits (word : string) :
  strip_digits word = without_digits word.
Proof.
  induction word as [|c s IH]; [done|].
  rewrite strip_digits_cons. simpl. by rewrite IH.
Qed.

Lemma without_digits_idemp (word : string) :
  without_digits (without_digits word) = without_digits word.
Proof.
  induction word as [|c s IH]; [done|]. simpl.
  destruct (Py.isdigit c) eqn:E; [done|]. simpl. by rewrite E, IH.
Qed.

(** ** The graph dictionaries *)

(** The set stored under a key, empty when the key is missing. *)
Definition children (g : Graph) (k : option Node) : gset Node :=
  default ∅ (_children_of g !! k).

Definition parents (g : Graph) (k : option Node) : gset Node :=
  default ∅ (_parents_of g !! k).

(** Where the segment of a node ends. *)
Definition end_pos (n : Node) : nat := position n + String.length (value n).

Lemma elem_of_dd_add (k : option Node) (v : Node) (d : NodeDict) k' x :
  x ∈ default ∅ (dd_add k v d !! k') ↔ x ∈ default ∅ (d !! k') ∨ (k' = k ∧ x = v).
Proof.
  unfold dd_add. destruct (decide (k = k')) as [->|Hne].
  - rewrite lookup_insert_eq. simpl. rewrite elem_of_union, elem_of_singleton.
    naive_solver.
  - rewrite lookup_insert_ne by done. naive_solver.
Qed.

Lemma elem_of_children_add_edge p c g k x :
  x ∈ children (add_edge p c g) k ↔ x ∈ children g k ∨ (k = p ∧ c = Some x).
Proof.
  unfold children, add_edge. destruct c as [c|], p as [p|]; simpl;
    rewrite ?elem_of_dd_add; naive_solver.
Qed.

Lemma elem_of_parents_add_edge p c g k x :
  x ∈ parents (add_edge p c g) k ↔ x ∈ parents g k ∨ (k = c ∧ p = Some x).
Proof.
  unfold parents, add_edge. destruct c as [c|], p as [p|]; simpl;
    rewrite ?elem_of_dd_add; naive_solver.
Qed.

Global Arguments add_edge : simpl never.

Lemma children_firsts g k : children (firsts g).2 k = children g k.
Proof.
  unfold children, firsts, dd_get. simpl.
  destruct (decide (k = None)) as [->|Hne].
  - rewrite lookup_insert_eq. done.
  - by rewrite lookup_insert_ne.
Qed.

Lemma children_lasts g k : children (lasts g).2 k = children g k.
Proof. done. Qed.

Lemma parents_firsts g k : parents (firsts g).2 k = parents g k.
Proof. done. Qed.

Lemma firsts_children g : (firsts g).1 = children g None.
Proof. done. Qed.

Lemma lasts_parents g : (lasts g).1 = parents g None.
Proof. done. Qed.

Lemma elem_of_edges g k c : (k, c) ∈ edges g ↔ c ∈ children g k.
Proof.
  unfold edges, children. rewrite list_elem_of_bind. split.
  - intros ([k' cs] & Hin & Hm). apply elem_of_map_to_list in Hm.
    apply list_elem_of_fmap in Hin as (c' & [= -> ->] & Hc).
    rewrite Hm. simpl. by apply elem_of_elements.
  - intros Hc. destruct (_children_of g !! k) as [cs|] eqn:E; simpl in Hc.
    + exists (k, cs). split; [|by apply elem_of_map_to_list].
      apply list_elem_of_fmap. exists c. by rewrite elem_of_elements.
    + set_solver.
Qed.

(** ** Tokens of a word *)

Section word.
Variable symbols : list string.
Variable w : string.

Local Abbreviation N := (String.length w).
Local Abbreviation sfx p := (string_drop p w).

(** A node is a token of the word: its glyph is valid and stands in the
    word at the node's position. *)
Definition is_tok (n : Node) : Prop :=
  valid_glyph symbols (value n) ∧ ∃ t, sfx (position n) = value n +:+ t.

Lemma is_tok_sfx n : is_tok n → sfx (position n) = value n +:+ sfx (end_pos n).
Proof.
  intros [_ [t Ht]]. rewrite Ht. f_equal. unfold end_pos.
  by rewrite <- string_drop_drop, Ht, string_drop_app.
Qed.

Lemma is_tok_pos_lt n : is_tok n → position n < end_pos n.
Proof. intros [[Hl _] _]. unfold end_pos. lia. Qed.

Lemma is_tok_end_le n : is_tok n → end_pos n ≤ N.
Proof.
  intros Ht. pose proof (is_tok_sfx n Ht) as Hs.
  pose proof (string_drop_length (position n) w) as H1.
  pose proof (string_drop_length (end_pos n) w) as H2.
  rewrite Hs, string_app_length, H2 in H1.
  destruct Ht as [[Hl _] _]. unfold end_pos in *. lia.
Qed.

Lemma is_tok_lt n : is_tok n → position n < N.
Proof.
  intros Ht. pose proof (is_tok_pos_lt n Ht). pose proof (is_tok_end_le n Ht). lia.
Qed.

(** Two tokens at one position with glyphs of one length are one node. *)
Lemma is_tok_eq a b :
  is_tok a → is_tok b → position a = position b →
  String.length (value a) = String.length (value b) → a = b.
Proof.
  intros [_ [ta Ha]] [_ [tb Hb]] Hp Hl. rewrite Hp, Hb in Ha.
  apply string_app_inj in Ha as [Hv _]; [|done].
  destruct a, b; simpl in *; congruence.
Qed.

(** The tokens at a position are the one-character and the two-character
    root [pop_root] forms there. *)
Lemma is_tok_single p c1 rest1 :
  sfx p = String c1 rest1 →
  is_tok (mkNode (String c1 "") p) ↔ Py.capitalize (String c1 "") ∈ symbols.
Proof.
  intros Hs. unfold is_tok, valid_glyph. simpl. rewrite Hs.
  split; [naive_solver|]. intros H. split; [auto|]. by exists rest1.
Qed.

Lemma is_tok_double p c1 c2 rest2 :
  sfx p = String c1 (String c2 rest2) →
  is_tok (mkNode (String c1 (String c2 "")) p)
  ↔ Py.capitalize (String c1 (String c2 "")) ∈ symbols.
Proof.
  intros Hs. unfold is_tok, valid_glyph. simpl. rewrite Hs.
  split; [naive_solver|]. intros H. split; [auto|]. by exists rest2.
Qed.

Lemma is_tok_at p c1 rest1 t :
  sfx p = String c1 rest1 → is_tok t → position t = p →
  t = mkNode (String c1 "") p
  ∨ ∃ c2 rest2, rest1 = String c2 rest2 ∧ t = mkNode (String c1 (String c2 "")) p.
Proof.
  intros Hs [[Hl _] [r Hr]] Hp. destruct t as [v q]. simpl in *. subst q.
  rewrite Hs in Hr.
  destruct v as [|a [|b [|c v]]]; simpl in Hl; try lia.
  - left. rewrite string_app_cons in Hr. congruence.
  - right. rewrite !string_app_cons, string_app_nil in Hr.
    injection Hr as -> ->. eauto.
Qed.
(** ** The invariant of the builder *)

(** What may stand before a token that starts at [pos], and what may
    follow a token that ends at [e]. *)
Definition prev_ok (k : option Node) (pos : nat) : Prop :=
  match k with
  | None => pos = 0
  | Some q => is_tok q ∧ end_pos q = pos
  end.

Definition next_ok (k : option Node) (e : nat) : Prop :=
  match k with
  | None => e = N
  | Some c => is_tok c ∧ position c = e
  end.

(** A token is closed in a graph when every token that can follow it is
    among its children, and it precedes the end when it ends the word. *)
Definition closed_tok (g : Graph) (t : Node) : Prop :=
  (∀ u, is_tok u → position u = end_pos t → u ∈ children g (Some t))
  ∧ (end_pos t = N → t ∈ parents g None).

(** The invariant of [pop_root] at position [p]: the edges join adjacent
    tokens, the processed strings are suffixes of the word, the tokens of
    a processed suffix are closed, and a token whose suffix is not yet
    processed starts before [p]. *)
Record Inv (b : Build) (p : nat) : Prop := mkInv {
  inv_child : ∀ k c, c ∈ children (graph b) k → is_tok c ∧ prev_ok k (position c);
  inv_parent : ∀ k x, x ∈ parents (graph b) k → is_tok x ∧ next_ok k (end_pos x);
  inv_proc : ∀ s, s ∈ processed b → ∃ q, q < N ∧ s = sfx q;
  inv_closed : ∀ t, is_tok t → sfx (position t) ∈ processed b →
               closed_tok (graph b) t;
  inv_pending : ∀ k t, t ∈ children (graph b) k →
                sfx (position t) ∈ processed b ∨ position t < p
}.

(** How a call at position [p] extends the state. *)
Record Ext (p : nat) (b b' : Build) : Prop := mkExt {
  ext_children : ∀ k, children (graph b) k ⊆ children (graph b') k;
  ext_parents : ∀ k, parents (graph b) k ⊆ parents (graph b') k;
  ext_processed : processed b ⊆ processed b';
  ext_new : ∀ s, s ∈ processed b' →
            s ∈ processed b ∨ ∃ q, p ≤ q ∧ q < N ∧ s = sfx q;
  ext_new_child : ∀ k t, t ∈ children (graph b') k →
                  t ∈ children (graph b) k ∨ p ≤ position t
}.

(** What [pop_root] establishes when called at position [p]. *)
Record Post (p : nat) (prev : option Node) (b b' : Build) : Prop := mkPost {
  post_inv : Inv b' p;
  post_ext : Ext p b b';
  post_processed : p < N → sfx p ∈ processed b';
  post_edges : ∀ t, is_tok t → position t = p → t ∈ children (graph b') prev;
  post_last : p = N → ∀ q, prev = Some q → q ∈ parents (graph b') None
}.

Lemma Ext_refl p b : Ext p b b.
Proof. split; auto. Qed.

Lemma Ext_trans p p' b1 b2 b3 :
  p ≤ p' → Ext p b1 b2 → Ext p' b2 b3 → Ext p b1 b3.
Proof.
  intros Hp [c1 a1 s1 n1 m1] [c2 a2 s2 n2 m2]. split.
  - intros k. etrans; [apply c1|apply c2].
  - intros k. etrans; [apply a1|apply a2].
  - set_solver.
  - intros s [Hs|(q & ? & ? & ->)]%n2; [auto|]. right. exists q. split_and!; auto; lia.
  - intros k t [Ht|Ht]%m2; [auto|right; lia].
Qed.

Lemma closed_tok_mono p b b' t :
  Ext p b b' → closed_tok (graph b) t → closed_tok (graph b') t.
Proof.
  intros [c a _ _ _] [H1 H2]. split.
  - intros u Hu Hpu. by apply c, H1.
  - intros He. by apply a, H2.
Qed.

Lemma Inv_weaken b p p' : p ≤ p' → Inv b p → Inv b p'.
Proof.
  intros Hp [? ? ? ? Hpend]. split; auto.
  intros k t [?|?]%Hpend; [auto|right; lia].
Qed.

(** After a call at [p'] that started from a state good for [p], the
    state is good for [p] again: what the call added starts at or after
    [p'] and is processed. *)
Lemma Inv_strengthen b b' p p' :
  p ≤ p' → Inv b p → Ext p' b b' → Inv b' p' → Inv b' p.
Proof.
  intros Hp [_ _ _ _ Hpend] [_ _ Hs _ Hnew] [? ? ? ? Hpend']. split; auto.
  intros k t Ht. destruct (Hnew k t Ht) as [Hold|Hge].
  - destruct (Hpend k t Hold) as [?|?]; [left; by apply Hs|by right].
  - destruct (Hpend' k t Ht) as [?|?]; [by left|lia].
Qed.

Lemma Inv_init p : Inv (mkBuild Graph_init ∅) p.
Proof. split; unfold children, parents; simpl; intros; set_solver. Qed.

(** Adding the edge from a good predecessor to a token at [p]. *)
Lemma Inv_add_root b p prev root :
  prev_ok prev p → is_tok root → position root = p → Inv b (p + 1) →
  Inv (on_graph (add_edge prev (Some root)) b) (p + 1)
  ∧ Ext p b (on_graph (add_edge prev (Some root)) b).
Proof.
  intros Hprev Hroot Hpos [Hc Ha Hs Hcl Hpend]. split; [split|split]; simpl.
  - intros k c [?|[-> [= ->]]]%elem_of_children_add_edge; [eauto|].
    split; [done|]. by rewrite Hpos.
  - intros k x [?|[-> ->]]%elem_of_parents_add_edge; [eauto|].
    destruct Hprev as [Hx He]. split; [done|]. simpl. split; [done|lia].
  - done.
  - intros t Ht Hin. destruct (Hcl t Ht Hin) as [H1 H2]. split.
    + intros u Hu Hpu. apply elem_of_children_add_edge. left. by apply H1.
    + intros He. apply elem_of_parents_add_edge. left. by apply H2.
  - intros k t [?|[-> [= ->]]]%elem_of_children_add_edge; [eauto|right; lia].
  - intros k x ?. apply elem_of_children_add_edge. by left.
  - intros k x ?. apply elem_of_parents_add_edge. by left.
  - done.
  - auto.
  - intros k t [?|[-> [= ->]]]%elem_of_children_add_edge; [eauto|right; lia].
Qed.

(** The base case: the word is used up. *)
Lemma Post_end prev b :
  prev_ok prev N → Inv b N →
  Post N prev b (on_graph (add_edge prev None) b).
Proof.
  intros Hprev [Hc Ha Hs Hcl Hpend].
  assert (∀ k x, x ∈ children (add_edge prev None (graph b)) k
                 ↔ x ∈ children (graph b) k) as Hch.
  { intros k x. rewrite elem_of_children_add_edge. naive_solver. }
  split; [split|split|..]; simpl.
  - intros k c ?%Hch. auto.
  - intros k x [?|[-> ->]]%elem_of_parents_add_edge; [eauto|].
    destruct Hprev as [Hx He]. done.
  - done.
  - intros t Ht Hin. destruct (Hcl t Ht Hin) as [H1 H2]. split.
    + intros u Hu Hpu. apply Hch. by apply H1.
    + intros He. apply elem_of_parents_add_edge. left. by apply H2.
  - intros k t ?%Hch. eauto.
  - intros k x ?. by apply Hch.
  - intros k x ?. apply elem_of_parents_add_edge. by left.
  - done.
  - auto.
  - intros k t ?%Hch. auto.
  - lia.
  - intros t Ht Hp. apply is_tok_lt in Ht. lia.
  - intros _ q ->. apply elem_of_parents_add_edge. by right.
Qed.
(** One of the two branches of [pop_root]: the edge to a root and, for a
    suffix met for the first time, the recursive call. *)
Definition try_root (rec : Build → Build) (root : Node) (remaining : string)
    (prev : option Node) (b : Build) : Build :=
  if decide (Py.capitalize (value root) ∈ symbols) then
    let b := on_graph (add_edge prev (Some root)) b in
    if decide (remaining ∉ processed b) then rec b else b
  else b.

Lemma pop_root_cons c1 rest1 p prev b :
  pop_root symbols (String c1 rest1) p prev b =
  let single_root := mkNode (String c1 "") p in
  let b1 :=
    try_root (pop_root symbols rest1 (p + 1) (Some single_root))
      single_root (String c1 rest1) prev b in
  let b2 :=
    match rest1 with
    | String c2 rest2 =>
        let double_root := mkNode (String c1 (String c2 "")) p in
        try_root (pop_root symbols rest2 (p + 2) (Some double_root))
          double_root (String c1 rest1) prev b1
    | EmptyString => b1
    end in
  mkBuild (graph b2) (processed b2 ∪ {[String c1 rest1]}).
Proof. destruct rest1; reflexivity. Qed.

(** What a branch establishes. *)
Record Mid (p : nat) (prev : option Node) (root : Node) (b b' : Build) : Prop :=
  mkMid {
  mid_inv : Inv b' (p + 1);
  mid_ext : Ext p b b';
  mid_edge : is_tok root → root ∈ children (graph b') prev;
  mid_closed : is_tok root → sfx p ∉ processed b → closed_tok (graph b') root;
  mid_proc : sfx p ∈ processed b' → sfx p ∈ processed b
}.

Lemma try_root_mid rec root len p prev b :
  (is_tok root → ∀ b1, Inv b1 (p + len) → Post (p + len) (Some root) b1 (rec b1)) →
  position root = p → String.length (value root) = len → 1 ≤ len →
  (is_tok root ↔ Py.capitalize (value root) ∈ symbols) →
  prev_ok prev p → p < N → Inv b (p + 1) →
  Mid p prev root b (try_root rec root (sfx p) prev b).
Proof.
  intros Hrec Hpos Hlen Hl Hvalid Hprev HpN Hinv. unfold try_root.
  destruct (decide (Py.capitalize (value root) ∈ symbols)) as [Hin|Hnin].
  - apply Hvalid in Hin.
    destruct (Inv_add_root b p prev root Hprev Hin Hpos Hinv) as [Hinv1 Hext1].
    cbv zeta. set (b1 := on_graph (add_edge prev (Some root)) b) in *.
    assert (root ∈ children (graph b1) prev) as Hedge.
    { apply elem_of_children_add_edge. by right. }
    destruct (decide (sfx p ∉ processed b1)) as [Hfresh|Hseen].
    + assert (Inv b1 (p + len)) as Hinv1' by (eapply Inv_weaken; [|done]; lia).
      destruct (Hrec Hin b1 Hinv1') as [Pinv Pext Pproc Pedges Plast].
      split.
      * eapply Inv_strengthen; [|exact Hinv1|exact Pext|exact Pinv]. lia.
      * eapply Ext_trans; [|exact Hext1|exact Pext]. lia.
      * intros _. by apply (ext_children _ _ _ Pext).
      * intros _ _. split.
        -- intros u Hu Hpu. apply Pedges; [done|]. unfold end_pos in Hpu. lia.
        -- intros He. apply (Plast); [unfold end_pos in He; lia|done].
      * intros Hin'.
        destruct (ext_new _ _ _ Pext _ Hin') as [?|(q & Hq1 & Hq2 & Heq)]; [done|].
        apply string_drop_inj in Heq; lia.
    + apply dec_stable in Hseen. split; done.
  - split; [done|apply Ext_refl|..]; try done; intros Ht; by apply Hvalid in Ht.
Qed.

(** The end of a call on a non-empty suffix: the suffix joins the
    processed set. *)
Lemma Post_assemble p prev b b2 :
  p < N → Inv b p → Inv b2 (p + 1) → Ext p b b2 →
  (∀ t, is_tok t → position t = p →
        t ∈ children (graph b2) prev
        ∧ (sfx p ∉ processed b → closed_tok (graph b2) t)) →
  Post p prev b (mkBuild (graph b2) (processed b2 ∪ {[sfx p]})).
Proof.
  intros HpN Hinv Hinv2 Hext Htoks.
  destruct Hinv2 as [Hc Ha Hs Hcl Hpend]. split; [split|split|..]; simpl.
  - done.
  - done.
  - intros s [?|Heq%elem_of_singleton]%elem_of_union; [eauto|subst s; eauto].
  - intros t Ht [?|Heq%elem_of_singleton]%elem_of_union; [auto|].
    apply string_drop_inj in Heq; [|pose proof (is_tok_lt t Ht); lia|lia].
    destruct (decide (sfx p ∈ processed b)) as [Hold|Hfresh].
    + apply (closed_tok_mono p b b2); [done|].
      apply (inv_closed _ _ Hinv); [done|]. by rewrite Heq.
    + by apply Htoks.
  - intros k t Ht. destruct (Hpend k t Ht) as [?|Hlt].
    + left. apply elem_of_union. by left.
    + destruct (decide (position t = p)) as [->|Hne].
      * left. apply elem_of_union. right. by apply elem_of_singleton.
      * right. lia.
  - apply (ext_children _ _ _ Hext).
  - apply (ext_parents _ _ _ Hext).
  - intros s Hs'. apply elem_of_union. left. by apply (ext_processed _ _ _ Hext).
  - intros s [Hs'|Heq%elem_of_singleton]%elem_of_union.
    + by apply (ext_new _ _ _ Hext).
    + right. exists p. split_and!; [lia|done|done].
  - apply (ext_new_child _ _ _ Hext).
  - intros _. apply elem_of_union. right. by apply elem_of_singleton.
  - intros t Ht Hp. by apply Htoks.
  - lia.
Qed.

(** The specification of [pop_root]. *)
Lemma pop_root_post n : ∀ p prev b,
  N - p < n → p ≤ N → prev_ok prev p → Inv b p →
  Post p prev b (pop_root symbols (sfx p) p prev b).
Proof.
  induction n as [|n IH]; intros p prev b Hn HpN Hprev Hinv; [lia|].
  destruct (sfx p) as [|c1 rest1] eqn:E.
  - assert (p = N) as ->.
    { pose proof (string_drop_length p w) as Hl. rewrite E in Hl. simpl in Hl. lia. }
    simpl. by apply Post_end.
  - pose proof (string_drop_lt _ _ _ _ E) as Hlt.
    pose proof (string_drop_cons _ _ _ _ E) as E1.
    rewrite pop_root_cons. cbv zeta. rewrite <- E.
    set (single_root := mkNode (String c1 "") p).
    set (b1 := try_root _ single_root _ prev b).
    assert (Mid p prev single_root b b1) as M1.
    { apply (try_root_mid _ _ 1);
        [|done|done|lia|by apply (is_tok_single _ _ rest1)|done|done
         |by apply (Inv_weaken _ p); [lia|]].
      intros Hs b0 Hb0. rewrite <- E1. apply IH; [lia|lia| |done].
      split; [done|]. unfold end_pos. simpl. lia. }
    destruct rest1 as [|c2 rest2].
    + destruct M1 as [I1 X1 D1 C1 P1].
      apply Post_assemble; [done|done|done|done|].
      intros t Ht Hp.
      destruct (is_tok_at _ _ _ _ E Ht Hp) as [->|(? & ? & [=] & _)]. auto.
    + pose proof (string_drop_cons _ _ _ _ E1) as E2.
      pose proof (string_drop_lt _ _ _ _ E1) as Hlt1.
      replace (p + 1 + 1) with (p + 2) in E2 by lia.
      set (double_root := mkNode (String c1 (String c2 "")) p).
      set (b2 := try_root _ double_root _ prev b1).
      destruct M1 as [I1 X1 D1 C1 P1].
      assert (Mid p prev double_root b1 b2) as M2.
      { apply (try_root_mid _ _ 2);
          [|done|done|lia|by apply (is_tok_double _ _ _ rest2)|done|done|done].
        intros Hs b0 Hb0. rewrite <- E2. apply IH; [lia|lia| |done].
        split; [done|]. unfold end_pos. simpl. lia. }
      destruct M2 as [I2 X2 D2 C2 P2].
      apply Post_assemble; [done|done|done| |].
      { eapply Ext_trans; [|exact X1|exact X2]. lia. }
      intros t Ht Hp.
      destruct (is_tok_at _ _ _ _ E Ht Hp) as [->|(? & ? & [= <- <-] & ->)].
      * split; [by apply (ext_children _ _ _ X2), D1|].
        intros Hf. eapply closed_tok_mono; [exact X2|]. by apply C1.
      * split; [by apply D2|]. intros Hf. apply C2; [done|].
        intros Hin. apply Hf. by apply P1.
Qed.
(** ** The graph of a word *)

Definition built : Graph := build_spelling_graph symbols w Graph_init.

Lemma built_post :
  Post 0 None (mkBuild Graph_init ∅) (pop_root symbols w 0 None (mkBuild Graph_init ∅)).
Proof.
  pose proof (pop_root_post (S N) 0 None (mkBuild Graph_init ∅)) as H.
  rewrite string_drop_0 in H. apply H; [lia|lia|done|apply Inv_init].
Qed.

(** Every edge joins adjacent tokens of the word. *)
Lemma built_child k c :
  c ∈ children built k → is_tok c ∧ prev_ok k (position c).
Proof. apply (inv_child _ _ (post_inv _ _ _ _ built_post)). Qed.

Lemma built_parent k x :
  x ∈ parents built k → is_tok x ∧ next_ok k (end_pos x).
Proof. apply (inv_parent _ _ (post_inv _ _ _ _ built_post)). Qed.

(** Every token at the start of the word is a first. *)
Lemma built_first t : is_tok t → position t = 0 → t ∈ children built None.
Proof. apply (post_edges _ _ _ _ built_post). Qed.

(** Every token in the graph is closed. *)
Lemma built_closed k t : t ∈ children built k → closed_tok built t.
Proof.
  intros Ht. pose proof (post_inv _ _ _ _ built_post) as Hinv.
  destruct (inv_pending _ _ Hinv k t Ht) as [Hp|Hp]; [|lia].
  apply (inv_closed _ _ Hinv); [|done].
  by apply (inv_child _ _ Hinv k).
Qed.
End word.

(** ** The paths [find_all_paths] returns *)

Lemma elem_of_iter o (X : gset Node) x : x ∈ iter o X ↔ x ∈ X.
Proof. by rewrite iter_perm, elem_of_elements. Qed.

Lemma NoDup_iter o (X : gset Node) : NoDup (iter o X).
Proof. rewrite iter_perm. apply NoDup_elements. Qed.

Lemma find_all_paths_unroll o ptc start end_ path :
  find_all_paths o ptc start end_ path =
    if decide (start = end_) then [path ++ [start]]
    else match ptc !! Some start with
         | None => []
         | Some cs =>
             node ← iter o cs;
             if decide (node ∈ path ++ [start]) then []
             else find_all_paths o ptc node end_ (path ++ [start])
         end.
Proof.
  rewrite find_all_paths_equation_1.
  destruct (decide (start = end_)) as [->|Hne]; simpl; [done|].
  generalize (@eq_refl _ (ptc !! Some start)).
  generalize (ptc !! Some start) at 2 3 7. intros r e.
  by destruct r.
Qed.

(** Induction along the calls of [find_all_paths]. *)
Lemma find_all_paths_rect (o : SetOrder) (ptc : NodeDict) (end_ : Node)
    (P : Node → list Node → list (list Node) → Prop) :
  (∀ path, P end_ path [path ++ [end_]]) →
  (∀ start path, start ≠ end_ → ptc !! Some start = None → P start path []) →
  (∀ start path cs, start ≠ end_ → ptc !! Some start = Some cs →
     (∀ node, node ∉ path ++ [start] →
        P node (path ++ [start]) (find_all_paths o ptc node end_ (path ++ [start]))) →
     P start path
       (node ← iter o cs;
        if decide (node ∈ path ++ [start]) then []
        else find_all_paths o ptc node end_ (path ++ [start]))) →
  ∀ start path, P start path (find_all_paths o ptc start end_ path).
Proof.
  intros Hend Hnone Hsome start path.
  remember (paths_measure ptc start path) as n eqn:Hn.
  revert start path Hn. induction (lt_wf n) as [n _ IH]. intros start path ->.
  rewrite find_all_paths_unroll.
  destruct (decide (start = end_)) as [->|Hne]; [apply Hend|].
  destruct (ptc !! Some start) as [cs|] eqn:Hk; [|by apply Hnone].
  apply Hsome; [done|done|]. intros node Hnode.
  eapply IH; [|done]. by eapply paths_measure_decr.
Qed.

(** A walk from [start] to [end_] that keeps off the nodes of [path]:
    the nodes one call of [find_all_paths] appends to [path]. *)
Inductive walk (ptc : NodeDict) (end_ : Node) : list Node → Node → list Node → Prop :=
| walk_end path : walk ptc end_ path end_ [end_]
| walk_step path start node q :
    start ≠ end_ →
    node ∈ default ∅ (ptc !! Some start) →
    node ∉ path ++ [start] →
    walk ptc end_ (path ++ [start]) node q →
    walk ptc end_ path start (start :: q).

Lemma walk_head ptc end_ path start q :
  walk ptc end_ path start q → ∃ q', q = start :: q'.
Proof. destruct 1; eauto. Qed.

Lemma walk_last ptc end_ path start q :
  walk ptc end_ path start q → last q = Some end_.
Proof.
  induction 1 as [|path start node q _ _ _ Hw IH]; [done|].
  destruct (walk_head _ _ _ _ _ Hw) as [q' ->]. done.
Qed.

Lemma elem_of_find_all_paths o ptc start end_ path p :
  p ∈ find_all_paths o ptc start end_ path
  ↔ ∃ q, walk ptc end_ path start q ∧ p = path ++ q.
Proof.
  revert p. pattern start, path, (find_all_paths o ptc start end_ path).
  apply find_all_paths_rect; clear start path.
  - intros path p. rewrite list_elem_of_singleton. split.
    + intros ->. exists [end_]. split; [constructor|done].
    + intros (q & Hw & ->). by inversion Hw.
  - intros start path Hne Hk p. split; [by intros ?%elem_of_nil|].
    intros (q & Hw & ->). inversion Hw as [|? ? node ? ? Hin]; subst; [done|].
    rewrite Hk in Hin. set_solver.
  - intros start path cs Hne Hk IH p. rewrite list_elem_of_bind. split.
    + intros (node & Hp & Hnode). apply elem_of_iter in Hnode.
      destruct (decide (node ∈ path ++ [start])) as [?|Hnew];
        [by apply elem_of_nil in Hp|].
      apply (IH node Hnew) in Hp as (q & Hw & ->).
      exists (start :: q). split; [|by rewrite <- app_assoc].
      econstructor; [done| |done|done]. by rewrite Hk.
    + intros (q & Hw & ->). inversion Hw as [|? ? node q' ? Hin Hnew Hw']; subst; [done|].
      rewrite Hk in Hin. exists node. split; [|by apply elem_of_iter].
      rewrite decide_False by done. apply (IH node Hnew).
      exists q'. split; [done|]. by rewrite <- app_assoc.
Qed.

Lemma NoDup_find_all_paths o ptc start end_ path :
  NoDup (find_all_paths o ptc start end_ path).
Proof.
  pattern start, path, (find_all_paths o ptc start end_ path).
  apply find_all_paths_rect; clear start path.
  - intros path. apply NoDup_singleton.
  - intros. apply NoDup_nil_2.
  - intros start path cs Hne Hk IH. apply NoDup_bind.
    + intros x1 x2 p _ _ H1 H2.
      destruct (decide (x1 ∈ path ++ [start])); [by apply elem_of_nil in H1|].
      destruct (decide (x2 ∈ path ++ [start])); [by apply elem_of_nil in H2|].
      apply elem_of_find_all_paths in H1 as (q1 & [q1' ->]%walk_head & ->).
      apply elem_of_find_all_paths in H2 as (q2 & [q2' ->]%walk_head & Heq).
      apply app_inv_head in Heq. congruence.
    + intros node _. destruct (decide (node ∈ path ++ [start])); [apply NoDup_nil_2|].
      by apply IH.
    + apply NoDup_iter.
Qed.

(** ** Partitions of a word and paths of its graph *)

Lemma string_app_assoc (a b c : string) : (a +:+ b) +:+ c = a +:+ (b +:+ c).
Proof.
  induction a as [|x a IH]; [done|]. rewrite !string_app_cons. by rewrite IH.
Qed.

Lemma string_app_nil_r (a : string) : a +:+ "" = a.
Proof. induction a as [|x a IH]; [done|]. rewrite string_app_cons. by rewrite IH. Qed.

(** The nodes of a partition that starts at position [p]. *)
Fixpoint nodes_of (p : nat) (glyphs : list string) : list Node :=
  match glyphs with
  | [] => []
  | glyph :: glyphs => mkNode glyph p :: nodes_of (p + String.length glyph) glyphs
  end.

Lemma value_nodes_of p glyphs : value <$> nodes_of p glyphs = glyphs.
Proof.
  revert p. induction glyphs as [|x glyphs IH]; intros p; [done|].
  simpl. by rewrite IH.
Qed.

Lemma render_nodes_of p glyphs : render (nodes_of p glyphs) = Py.capitalize <$> glyphs.
Proof.
  revert p. induction glyphs as [|x glyphs IH]; intros p; [done|].
  unfold render in *. simpl. by rewrite IH.
Qed.

Lemma render_value path : render path = Py.capitalize <$> (value <$> path).
Proof. unfold render. by rewrite <- list_fmap_compose. Qed.

Section spellings.
Variable symbols : list string.
Variable w : string.

Local Abbreviation N := (String.length w).
Local Abbreviation sfx p := (string_drop p w).
Local Abbreviation tok := (is_tok symbols w).
Local Abbreviation G := (built symbols w).

(** Adjacent tokens from position [p] to position [e]. *)
Fixpoint chain (p : nat) (q : list Node) (e : nat) : Prop :=
  match q with
  | [] => p = e
  | t :: q => tok t ∧ position t = p ∧ chain (end_pos t) q e
  end.

Lemma chain_join p q e : chain p q e → sfx p = Py.join (value <$> q) +:+ sfx e.
Proof.
  revert p. induction q as [|t q IH]; intros p; cbn [chain].
  - by intros ->.
  - intros (Ht & <- & Hq). rewrite fmap_cons, join_cons, string_app_assoc, <- (IH _ Hq).
    by apply (is_tok_sfx symbols).
Qed.

Lemma chain_valid p q e : chain p q e → Forall (valid_glyph symbols) (value <$> q).
Proof.
  revert p. induction q as [|t q IH]; intros p; cbn [chain]; [by constructor|].
  intros ([Hv _] & _ & Hq). rewrite fmap_cons. constructor; eauto.
Qed.

Lemma chain_nodes_of glyphs p :
  p ≤ N → Forall (valid_glyph symbols) glyphs → sfx p = Py.join glyphs →
  chain p (nodes_of p glyphs) N.
Proof.
  revert p. induction glyphs as [|x glyphs IH]; intros p Hp Hv Hj; simpl.
  - pose proof (string_drop_length p w) as Hl. rewrite Hj in Hl. simpl in Hl. lia.
  - apply Forall_cons in Hv as [Hx Hv]. rewrite join_cons in Hj.
    assert (sfx (p + String.length x) = Py.join glyphs) as Hj'.
    { by rewrite <- string_drop_drop, Hj, string_drop_app. }
    assert (is_tok symbols w (mkNode x p)) as Ht by (split; eauto).
    split_and!; [done|done|]. apply IH; [|done|done].
    apply is_tok_end_le in Ht. exact Ht.
Qed.

(** Two chains from one position with the same rendering are the same. *)
Lemma chain_render_inj p q q' e e' :
  chain p q e → chain p q' e' → render q = render q' → q = q'.
Proof.
  revert p q'. induction q as [|t q IH]; intros p [|t' q']; simpl; try done.
  intros (Ht & Hp & Hq) (Ht' & Hp' & Hq') [= Hc Hr].
  assert (t = t') as <-.
  { apply (is_tok_eq symbols w); [done|done|congruence|].
    by rewrite <- (capitalize_length (value t)), Hc, capitalize_length. }
  f_equal. by eapply IH.
Qed.

Section paths.
Variable ptc : NodeDict.
Hypothesis ptc_children : ∀ k, default ∅ (ptc !! Some k) = children G (Some k).

(** A walk in the graph is a chain of the word. *)
Lemma walk_chain last path start q :
  walk ptc last path start q → tok last →
  chain (position start) q (end_pos last).
Proof using Type*.
  induction 1 as [path|path start node q Hne Hin Hnew Hw IH]; intros Hlast; simpl.
  - done.
  - rewrite ptc_children in Hin.
    apply built_child in Hin as [Hnode [Hstart He]].
    split_and!; [done|done|]. rewrite He. by apply IH.
Qed.

(** A chain to the end of the word, from a token of the graph, is a walk
    to a last. *)
Lemma chain_walk q : ∀ t path k,
  t ∈ children G k → chain (position t) (t :: q) N →
  (∀ x, x ∈ path → position x < position t) →
  ∃ last, last ∈ parents G None ∧ position t ≤ position last
          ∧ walk ptc last path t (t :: q).
Proof using Type*.
  induction q as [|u q IH]; intros t path k Ht (Htok & _ & Hq) Hpath.
  - simpl in Hq. exists t. split_and!; [|done|constructor].
    by apply (built_closed symbols w k).
  - pose proof Hq as (Hu & Hpu & _).
    destruct (built_closed symbols w k t Ht) as [Hnext _].
    pose proof (Hnext u Hu Hpu) as Hedge.
    pose proof (is_tok_pos_lt _ _ _ Htok) as Hlt.
    destruct (IH u (path ++ [t]) (Some t) Hedge) as (last & Hl & Hle & Hw).
    { by rewrite Hpu. }
    { intros x [Hx|Hx%list_elem_of_singleton]%elem_of_app; [|subst x; lia].
      specialize (Hpath x Hx). lia. }
    exists last. split_and!; [done|lia|].
    apply walk_step with (node := u); [|by rewrite ptc_children| |done].
    + intros ->. lia.
    + intros [Hx|Hx%list_elem_of_singleton]%elem_of_app; [|subst u; lia].
      specialize (Hpath u Hx). lia.
Qed.
End paths.

(** The paths [spell] renders: those of every first and every last, in
    turn. *)
Definition all_paths (o : SetOrder) (g : Graph) : list (list Node) :=
  first ← iter o (firsts g).1;
  last ← iter o (lasts (firsts g).2).1;
  find_all_paths o (_children_of (lasts (firsts g).2).2) first last [].

Lemma NoDup_all_paths o g : NoDup (all_paths o g).
Proof.
  unfold all_paths. apply NoDup_bind; [| |apply NoDup_iter].
  - intros f1 f2 p _ _ (l1 & H1 & _)%list_elem_of_bind (l2 & H2 & _)%list_elem_of_bind.
    apply elem_of_find_all_paths in H1 as (q1 & [q1' ->]%walk_head & ->).
    apply elem_of_find_all_paths in H2 as (q2 & [q2' ->]%walk_head & Heq).
    simpl in Heq. congruence.
  - intros f _. apply NoDup_bind; [| |apply NoDup_iter].
    + intros l1 l2 p _ _ H1 H2.
      apply elem_of_find_all_paths in H1 as (q1 & Hw1%walk_last & ->).
      apply elem_of_find_all_paths in H2 as (q2 & Hw2%walk_last & Heq).
      simpl in Heq. congruence.
    + intros. apply NoDup_find_all_paths.
Qed.

(** The paths of the graph of the word are its non-empty chains. *)
Lemma elem_of_all_paths o p : p ∈ all_paths o G ↔ p ≠ [] ∧ chain 0 p N.
Proof.
  unfold all_paths. rewrite firsts_children, lasts_parents, parents_firsts.
  set (ptc := _children_of (lasts (firsts G).2).2).
  assert (∀ k, default ∅ (ptc !! Some k) = children G (Some k)) as Hptc.
  { intros k. change (default ∅ (ptc !! Some k))
      with (children (lasts (firsts G).2).2 (Some k)).
    by rewrite children_lasts, children_firsts. }
  rewrite list_elem_of_bind. split.
  - intros (first & Hp & Hfirst%elem_of_iter).
    apply list_elem_of_bind in Hp as (last & Hp & Hlast%elem_of_iter).
    apply elem_of_find_all_paths in Hp as (q & Hw & ->). simpl.
    destruct (built_child _ _ _ _ Hfirst) as [Hf Hp0]. simpl in Hp0.
    destruct (built_parent _ _ _ _ Hlast) as [Hl He]. simpl in He.
    pose proof (walk_chain ptc Hptc last [] first q Hw Hl) as Hc.
    rewrite Hp0, He in Hc. split; [|done].
    by destruct (walk_head _ _ _ _ _ Hw) as [q' ->].
  - intros [Hne Hc]. destruct p as [|t q]; [done|].
    pose proof Hc as (Ht & Hp & _).
    pose proof (built_first symbols w t Ht Hp) as Hfirst.
    destruct (chain_walk ptc Hptc q t [] None Hfirst) as (last & Hl & _ & Hw).
    { by rewrite Hp. }
    { intros x Hx. by apply elem_of_nil in Hx. }
    exists t. split; [|by apply elem_of_iter].
    apply list_elem_of_bind. exists last. split; [|by apply elem_of_iter].
    apply elem_of_find_all_paths. by exists (t :: q).
Qed.

Lemma NoDup_rendered o : NoDup (render <$> all_paths o G).
Proof.
  apply NoDup_fmap_2_strong; [|apply NoDup_all_paths].
  intros p p' [_ Hc]%elem_of_all_paths [_ Hc']%elem_of_all_paths.
  by eapply chain_render_inj.
Qed.

(** The tuples [spell] sorts are the spellings of the non-empty
    partitions of the word. *)
Lemma elem_of_rendered o s :
  s ∈ render <$> all_paths o G
  ↔ ∃ glyphs, glyphs ≠ [] ∧ is_partition symbols w glyphs
              ∧ s = Py.capitalize <$> glyphs.
Proof.
  rewrite list_elem_of_fmap. split.
  - intros (p & -> & [Hne Hc]%elem_of_all_paths).
    exists (value <$> p). split_and!.
    + by destruct p.
    + split; [|by eapply chain_valid].
      pose proof (chain_join _ _ _ Hc) as Hj.
      rewrite string_drop_0 in Hj.
      rewrite (string_length_zero (sfx N)), string_app_nil_r in Hj; [done|].
      rewrite string_drop_length. lia.
    + apply render_value.
  - intros (glyphs & Hne & [Hj Hv] & ->). exists (nodes_of 0 glyphs).
    split; [by rewrite render_nodes_of|]. apply elem_of_all_paths. split.
    + by destruct glyphs.
    + apply chain_nodes_of; [lia|done|by rewrite string_drop_0].
Qed.
End spellings.

(** ** The order of the result *)

Lemma ascii_compare_refl a : Ascii.compare a a = Eq.
Proof. apply N.compare_refl. Qed.

Lemma ascii_compare_lt_trans a b c :
  Ascii.compare a b = Lt → Ascii.compare b c = Lt → Ascii.compare a c = Lt.
Proof. unfold Ascii.compare. rewrite !N.compare_lt_iff. lia. Qed.

Lemma string_compare_refl (s : string) : String.compare s s = Eq.
Proof. induction s as [|a s IH]; simpl; [done|]. by rewrite ascii_compare_refl. Qed.

Lemma string_compare_lt_trans (s t u : string) :
  String.compare s t = Lt → String.compare t u = Lt → String.compare s u = Lt.
Proof.
  revert t u. induction s as [|a s IH]; intros [|b t] [|c u]; simpl; try done.
  destruct (Ascii.compare a b) eqn:E1; try done;
    destruct (Ascii.compare b c) eqn:E2; try done; intros H1 H2.
  - apply Ascii.compare_eq_iff in E1 as ->. rewrite E2. eauto.
  - apply Ascii.compare_eq_iff in E1 as ->. by rewrite E2.
  - apply Ascii.compare_eq_iff in E2 as <-. by rewrite E1.
  - by rewrite (ascii_compare_lt_trans a b c).
Qed.

Lemma tuple_compare_eq s t : tuple_compare s t = Eq ↔ s = t.
Proof.
  revert t. induction s as [|a s IH]; intros [|b t]; simpl; try done.
  destruct (String.compare a b) eqn:E.
  - apply String.compare_eq_iff in E as ->. rewrite IH. naive_solver.
  - split; [done|]. intros [= -> _]. by rewrite string_compare_refl in E.
  - split; [done|]. intros [= -> _]. by rewrite string_compare_refl in E.
Qed.

Lemma tuple_compare_antisym s t : tuple_compare t s = CompOpp (tuple_compare s t).
Proof.
  revert t. induction s as [|a s IH]; intros [|b t]; simpl; try done.
  rewrite (String.compare_antisym a b).
  destruct (String.compare b a); simpl; auto.
Qed.

Lemma tuple_lt_trans s t u : tuple_lt s t → tuple_lt t u → tuple_lt s u.
Proof.
  unfold tuple_lt. revert t u.
  induction s as [|a s IH]; intros [|b t] [|c u]; simpl; try done.
  destruct (String.compare a b) eqn:E1; try done;
    destruct (String.compare b c) eqn:E2; try done; intros H1 H2.
  - apply String.compare_eq_iff in E1 as ->. rewrite E2. eauto.
  - apply String.compare_eq_iff in E1 as ->. by rewrite E2.
  - apply String.compare_eq_iff in E2 as <-. by rewrite E1.
  - by rewrite (string_compare_lt_trans a b c).
Qed.

Lemma tuple_lt_irrefl s : ¬ tuple_lt s s.
Proof. unfold tuple_lt. by rewrite (proj2 (tuple_compare_eq s s)). Qed.

Global Instance tuple_ge_total : Total tuple_ge.
Proof.
  intros s t. unfold tuple_ge. rewrite (tuple_compare_antisym s t).
  destruct (tuple_compare s t); simpl; auto.
Qed.

Global Instance tuple_ge_trans : Transitive tuple_ge.
Proof.
  intros s t u Hst Htu Hsu. unfold tuple_ge in *.
  destruct (tuple_compare s t) eqn:E1; [|done|].
  - apply tuple_compare_eq in E1 as ->. done.
  - destruct (tuple_compare t u) eqn:E2; [|done|].
    + apply tuple_compare_eq in E2 as ->. congruence.
    + apply (tuple_lt_irrefl s). apply (tuple_lt_trans s u); [done|].
      apply (tuple_lt_trans u t); unfold tuple_lt.
      * by rewrite tuple_compare_antisym, E2.
      * by rewrite tuple_compare_antisym, E1.
Qed.

Global Instance tuple_ge_antisymm : AntiSymm (=) tuple_ge.
Proof.
  intros s t Hst Hts. unfold tuple_ge in *.
  rewrite (tuple_compare_antisym s t) in Hts.
  destruct (tuple_compare s t) eqn:E; [|done|done].
  by apply tuple_compare_eq.
Qed.

Lemma sorted_reverse_perm l : sorted_reverse l ≡ₚ l.
Proof. apply merge_sort_Permutation. Qed.

Lemma elem_of_sorted_reverse l s : s ∈ sorted_reverse l ↔ s ∈ l.
Proof. by rewrite sorted_reverse_perm. Qed.

(** Descending and free of duplicates is strictly descending. *)
Lemma StronglySorted_strict l :
  StronglySorted tuple_ge l → NoDup l → StronglySorted (flip tuple_lt) l.
Proof.
  induction 1 as [|x l Hl IH Hx]; intros Hnd; constructor.
  - apply IH. by apply NoDup_cons in Hnd as [_ ?].
  - apply NoDup_cons in Hnd as [Hnin _].
    apply Forall_forall. intros y Hy.
    rewrite Forall_forall in Hx. specialize (Hx y Hy).
    unfold flip, tuple_lt, tuple_ge in *. rewrite tuple_compare_antisym.
    destruct (tuple_compare x y) eqn:E; [|done|done].
    apply tuple_compare_eq in E as ->. done.
Qed.

Lemma sorted_reverse_strict l :
  NoDup l → StronglySorted (flip tuple_lt) (sorted_reverse l).
Proof.
  intros Hnd. apply StronglySorted_strict.
  - apply StronglySorted_merge_sort; apply _.
  - by rewrite sorted_reverse_perm.
Qed.

(** The result of a sort is fixed by its elements: whatever order the
    sets are iterated in, [sorted] returns the same list. *)
Lemma sorted_reverse_unique l k : l ≡ₚ k → sorted_reverse l = sorted_reverse k.
Proof.
  intros Hp. apply (Sorted_unique tuple_ge).
  - apply Sorted_merge_sort; apply _.
  - apply Sorted_merge_sort; apply _.
  - by rewrite !sorted_reverse_perm.
Qed.

(** ** spell, through the graph of the stripped word *)

Lemma bind_singleton_fmap {A B} (f : A → B) (l : list A) :
  (x ← l; [f x]) = f <$> l.
Proof. induction l as [|x l IH]; [done|]. csimpl. by rewrite IH. Qed.

Lemma fmap_bind_list {A B C} (f : B → C) (g : A → list B) (l : list A) :
  f <$> (l ≫= g) = l ≫= (λ x, f <$> g x).
Proof.
  induction l as [|x l IH]; [done|]. csimpl. by rewrite fmap_app, IH.
Qed.

Lemma spell_all_paths o word symbols :
  spell o word symbols
  = sorted_reverse (render <$> all_paths o (built ELEMENTS (strip_digits word))).
Proof.
  unfold spell, all_paths, built. f_equal.
  rewrite fmap_bind_list. apply list_bind_ext; [|done]. intros first.
  rewrite fmap_bind_list. apply list_bind_ext; [|done]. intros last.
  apply bind_singleton_fmap.
Qed.

Lemma elem_of_spell o word symbols spelling :
  spelling ∈ spell o word symbols
  ↔ ∃ glyphs, glyphs ≠ [] ∧ is_partition ELEMENTS (strip_digits word) glyphs
              ∧ spelling = Py.capitalize <$> glyphs.
Proof.
  by rewrite spell_all_paths, elem_of_sorted_reverse, elem_of_rendered.
Qed.

Lemma partition_nonempty symbols word glyphs :
  word ≠ "" → is_partition symbols word glyphs → glyphs ≠ [].
Proof. intros Hw [Hj _] ->. by apply Hw. Qed.

Lemma partition_of_empty symbols glyphs :
  is_partition symbols "" glyphs → glyphs = [].
Proof.
  intros [Hj Hv]. destruct glyphs as [|x glyphs]; [done|].
  apply Forall_cons in Hv as [[Hl _] _]. rewrite join_cons in Hj.
  apply (f_equal String.length) in Hj. rewrite string_app_length in Hj.
  simpl in Hj. lia.
Qed.

(** Over the standard table a spelling is a sequence of symbols of the
    table that concatenates, case-insensitively, to the word. *)
Lemma upper_char_lower_char c : Py.upper_char (Py.lower_char c) = Py.upper_char c.
Proof. by destruct c as [[] [] [] [] [] [] [] []]. Qed.

Lemma capitalize_lower (s : string) : Py.capitalize (Py.lower s) = Py.capitalize s.
Proof.
  destruct s as [|c s]; [done|]. simpl.
  by rewrite upper_char_lower_char, lower_idemp.
Qed.

Lemma lower_split (a b w : string) :
  Py.lower w = a +:+ b → ∃ g w', w = g +:+ w' ∧ Py.lower g = a ∧ Py.lower w' = b.
Proof.
  revert w. induction a as [|c a IH]; intros w H.
  - by exists "", w.
  - destruct w as [|x w]; [done|]. rewrite string_app_cons in H.
    injection H as Hx H. destruct (IH w H) as (g & w' & -> & Hg & Hw').
    exists (String x g), w'. simpl. by rewrite Hx, Hg.
Qed.

Lemma ELEMENTS_canonical :
  Forall (λ s, (String.length s = 1 ∨ String.length s = 2) ∧ Py.capitalize s = s)
    ELEMENTS.
Proof. apply (bool_decide_unpack _). by vm_compute. Qed.

Lemma is_spelling_ELEMENTS word spelling :
  is_spelling ELEMENTS word spelling
  ↔ Forall (λ s, s ∈ ELEMENTS) spelling
    ∧ Py.lower (Py.join spelling) = Py.lower word.
Proof.
  split.
  - intros (glyphs & [Hj Hv] & ->). split.
    + apply Forall_fmap. eapply Forall_impl; [exact Hv|]. by intros g [_ ?].
    + by rewrite lower_join_capitalize, Hj.
  - revert word. induction spelling as [|s spelling IH]; intros word [Hs Hl].
    + exists []. split; [|done]. split; [|constructor].
      apply (f_equal String.length) in Hl. rewrite !lower_length in Hl.
      symmetry. apply string_length_zero. by rewrite <- Hl.
    + apply Forall_cons in Hs as [Hs Hrest].
      rewrite join_cons, lower_app in Hl. symmetry in Hl.
      apply lower_split in Hl as (g & w' & -> & Hg & Hw').
      destruct (IH w') as (glyphs & [Hj Hv] & ->); [done|].
      pose proof ELEMENTS_canonical as Hcan. rewrite Forall_forall in Hcan.
      destruct (Hcan s Hs) as [Hlen Hcap].
      assert (Py.capitalize g = s) as Hgs.
      { by rewrite <- (capitalize_lower g), Hg, capitalize_lower. }
      exists (g :: glyphs). split; [split|].
      * by rewrite join_cons, Hj.
      * constructor; [|done]. split; [|by rewrite Hgs].
        by rewrite <- (lower_length g), Hg, lower_length.
      * by rewrite fmap_cons, Hgs.
Qed.

Lemma NoDup_spell o word symbols : NoDup (spell o word symbols).
Proof.
  rewrite spell_all_paths, sorted_reverse_perm. apply NoDup_rendered.
Qed.

(** The result does not depend on the order in which the sets are
    iterated: the sort fixes it. *)
Lemma spell_order_irrelevant o o' word symbols :
  spell o word symbols = spell o' word symbols.
Proof.
  rewrite !spell_all_paths. apply sorted_reverse_unique.
  apply NoDup_Permutation; [apply NoDup_rendered..|].
  intros x. by rewrite !elem_of_rendered.
Qed.

Lemma spell_eval o word symbols result :
  spell elements_order word symbols = result → spell o word symbols = result.
Proof. intros <-. apply spell_order_irrelevant. Qed.

(** * The claims *)

(** C1, as amended.  For every word that is not empty once its digits
    are stripped, [spell] over the standard symbol table returns exactly
    the spellings of the word: a tuple is in the result if and only if it
    is the sequence of canonical symbols of a partition of the whole word
    into valid one- or two-character tokens; that is, if and only if it
    is a sequence of symbols of the table that concatenates,
    case-insensitively, to the whole word. *)
Theorem spell_exact o word spelling :
  strip_digits word ≠ "" →
  (spelling ∈ spell o word ELEMENTS
   ↔ is_spelling ELEMENTS (strip_digits word) spelling)
  ∧ (spelling ∈ spell o word ELEMENTS
     ↔ Forall (λ s, s ∈ ELEMENTS) spelling
       ∧ Py.lower (Py.join spelling) = Py.lower (strip_digits word)).
Proof.
  intros Hne.
  assert (spelling ∈ spell o word ELEMENTS
          ↔ is_spelling ELEMENTS (strip_digits word) spelling) as H.
  { rewrite elem_of_spell. split.
    - intros (glyphs & _ & Hp & ->). by exists glyphs.
    - intros (glyphs & Hp & ->). exists glyphs. split_and!; [|done|done].
      by eapply partition_nonempty. }
  split; [done|]. by rewrite H, is_spelling_ELEMENTS.
Qed.

Lemma spell_exact_witness :
  (["He"] ∈ spell elements_order "he" ELEMENTS
   ↔ is_spelling ELEMENTS (strip_digits "he") ["He"])
  ∧ (["He"] ∈ spell elements_order "he" ELEMENTS
     ↔ Forall (λ s, s ∈ ELEMENTS) ["He"]
       ∧ Py.lower (Py.join ["He"]) = Py.lower (strip_digits "he")).
Proof.
  apply (spell_exact elements_order "he" ["He"]). vm_compute. discriminate.
Defined.

(** C1, as stated, fails twice.  The empty word has the empty partition,
    and [spell] returns no spelling for it; and the symbols passed to
    [spell] are not the ones the graph is built with: with the single
    symbol [X], the word [x] has the spelling [X], which is not returned. *)
Lemma spell_exact_counterexample :
  (is_spelling ELEMENTS (strip_digits "") []
   ∧ ∀ o, [] ∉ spell o "" ELEMENTS)
  ∧ (is_spelling ["X"] (strip_digits "x") ["X"]
     ∧ ∀ o, ["X"] ∉ spell o "x" ["X"]).
Proof.
  split; split.
  - exists []. repeat split. constructor.
  - intros o. rewrite (spell_eval o "" ELEMENTS []) by (by vm_compute).
    by intros ?%elem_of_nil.
  - exists ["x"]. repeat split. constructor; [|constructor].
    split; [by left|]. vm_compute. by left.
  - intros o. rewrite (spell_eval o "x" ["X"] []) by (by vm_compute).
    by intros ?%elem_of_nil.
Qed.

(** C2.  The result of [spell] is in strictly descending lexicographic
    order of the symbol tuples, whatever the word; in particular it holds
    no spelling twice. *)
Theorem spell_strictly_descending o word symbols :
  StronglySorted (λ s t, tuple_lt t s) (spell o word symbols)
  ∧ NoDup (spell o word symbols).
Proof.
  split; [|apply NoDup_spell].
  rewrite spell_all_paths. apply sorted_reverse_strict, NoDup_rendered.
Qed.

(** C3.  Over the standard table of 118 symbols, [spell("amputation")]
    is, for every iteration order of the sets, the list of
    [("Am","Pu","Ta","Ti","O","N")] and [("Am","P","U","Ta","Ti","O","N")],
    in this order: it holds both, the first ahead of the second. *)
Theorem spell_amputation o :
  length ELEMENTS = 118
  ∧ spell o "amputation" ELEMENTS
    = [ ["Am"; "Pu"; "Ta"; "Ti"; "O"; "N"];
        ["Am"; "P"; "U"; "Ta"; "Ti"; "O"; "N"] ]
  ∧ ∃ i j, i < j
      ∧ spell o "amputation" ELEMENTS !! i
        = Some ["Am"; "Pu"; "Ta"; "Ti"; "O"; "N"]
      ∧ spell o "amputation" ELEMENTS !! j
        = Some ["Am"; "P"; "U"; "Ta"; "Ti"; "O"; "N"].
Proof.
  assert (spell o "amputation" ELEMENTS
          = [ ["Am"; "Pu"; "Ta"; "Ti"; "O"; "N"];
              ["Am"; "P"; "U"; "Ta"; "Ti"; "O"; "N"] ]) as H
    by (apply spell_eval; by vm_compute).
  split_and!; [done|done|]. exists 0, 1. rewrite H. split_and!; [lia|done|done].
Qed.

(** C4.  The digits of the word are stripped before the graph is built
    and reject nothing: [spell] of a word is [spell] of the word without
    its digit characters, and [spell("h2")] is [spell("h")]. *)
Theorem spell_strips_digits o word symbols :
  strip_digits word = without_digits word
  ∧ spell o word symbols = spell o (without_digits word) symbols
  ∧ spell o "h2" symbols = spell o "h" symbols.
Proof.
  split_and!; [apply strip_digits_without_digits| |done].
  unfold spell.
  by rewrite !strip_digits_without_digits, without_digits_idemp.
Qed.

(** C5.  A word that has no partition into valid tokens of the symbol
    table is spelled by the empty list: [spell] returns, and returns no
    spelling. *)
Theorem spell_no_partition o word symbols :
  (∀ glyphs, ¬ is_partition ELEMENTS (strip_digits word) glyphs) →
  spell o word symbols = [].
Proof.
  intros Hno. destruct (spell o word symbols) as [|s l] eqn:E; [done|].
  assert (s ∈ spell o word symbols) as Hs by (rewrite E; left).
  apply elem_of_spell in Hs as (glyphs & _ & Hp & _). by destruct (Hno glyphs).
Qed.

Lemma spell_no_partition_witness :
  (∀ glyphs, ¬ is_partition ELEMENTS (strip_digits "q") glyphs)
  ∧ spell elements_order "q" ELEMENTS = [].
Proof.
  assert (∀ glyphs, ¬ is_partition ELEMENTS (strip_digits "q") glyphs) as Hno.
  { intros glyphs [Hj Hv]. change (strip_digits "q") with "q" in Hj.
    destruct glyphs as [|x glyphs]; [done|].
    apply Forall_cons in Hv as [[Hl Hx] _]. rewrite join_cons in Hj.
    destruct x as [|a [|b [|c x]]]; simpl in Hl; try lia.
    - rewrite string_app_cons in Hj. injection Hj as -> _.
      revert Hx. vm_compute. intros Hx.
      repeat (apply elem_of_cons in Hx as [Hx|Hx]; [discriminate|]).
      by apply elem_of_nil in Hx.
    - rewrite !string_app_cons in Hj. injection Hj as _ Hj. discriminate. }
  split; [exact Hno|].
  exact (spell_no_partition elements_order "q" ELEMENTS Hno).
Defined.

(** A path through the graph: every node is followed by one of its
    children. *)
Definition is_path (g : Graph) (path : list Node) : Prop :=
  ∀ i a b, path !! i = Some a → path !! S i = Some b → (Some a, b) ∈ edges g.

Lemma increasing_lookup (l : list Node) :
  (∀ i a b, l !! i = Some a → l !! S i = Some b → position a < position b) →
  ∀ i j a b, i < j → l !! i = Some a → l !! j = Some b → position a < position b.
Proof.
  intros H i j. induction j as [|j IH]; intros a b Hij Ha Hb; [lia|].
  destruct (decide (i = j)) as [->|Hne]; [by eapply H|].
  destruct (l !! j) as [c|] eqn:Hc.
  - etrans; [apply (IH a c); [lia|done|done]|by eapply H].
  - apply lookup_ge_None in Hc. apply lookup_lt_Some in Hb. lia.
Qed.

Lemma built_edge_increasing symbols w p c :
  c ∈ children (built symbols w) (Some p) → position p < position c.
Proof.
  intros [_ [Hp He]]%built_child. rewrite <- He. by eapply is_tok_pos_lt.
Qed.

(** C6.  The graph [build_spelling_graph] makes has no cycle: every edge
    between two nodes leads to a node at a strictly greater offset, in
    the children dictionary as in the parents dictionary, so a path
    through the graph visits no node twice. *)
Theorem graph_acyclic symbols word :
  let g := build_spelling_graph symbols word Graph_init in
  (∀ p c, (Some p, c) ∈ edges g → position p < position c)
  ∧ (∀ p c, p ∈ parents g (Some c) → position p < position c)
  ∧ (∀ path, is_path g path → NoDup path).
Proof.
  cbv zeta. fold (built symbols word). split_and!.
  - intros p c Hc%elem_of_edges. by eapply built_edge_increasing.
  - intros p c [Hp [_ He]]%built_parent. rewrite He. by eapply is_tok_pos_lt.
  - intros path Hpath. apply NoDup_alt. intros i j x Hi Hj.
    assert (∀ i j a b, i < j → path !! i = Some a → path !! j = Some b →
                       position a < position b) as Hinc.
    { apply increasing_lookup. intros k a b Ha Hb.
      apply (built_edge_increasing symbols word), elem_of_edges. by eapply Hpath. }
    destruct (Nat.lt_trichotomy i j) as [Hlt|[?|Hlt]]; [|done|].
    + specialize (Hinc i j x x Hlt Hi Hj). lia.
    + specialize (Hinc j i x x Hlt Hj Hi). lia.
Qed.

Lemma size_at_most_two (X : gset Node) a b :
  (∀ t, t ∈ X → t = a ∨ t = b) → size X ≤ 2.
Proof.
  intros H. assert (X ⊆ {[a]} ∪ {[b]}) as Hsub.
  { intros t Ht. apply elem_of_union. rewrite !elem_of_singleton. auto. }
  apply subseteq_size in Hsub. rewrite size_union_alt, size_singleton in Hsub.
  assert (size (({[b]} : gset Node) ∖ {[a]}) ≤ 1).
  { rewrite <- (size_singleton (C := gset Node) b).
    apply subseteq_size. set_solver. }
  lia.
Qed.

Lemma built_firsts_bound symbols w : size (children (built symbols w) None) ≤ 2.
Proof.
  destruct w as [|c1 rest1] eqn:Ew.
  - apply (size_at_most_two _ (mkNode "" 0) (mkNode "" 0)).
    intros t [Ht _]%built_child. apply is_tok_lt in Ht. simpl in Ht. lia.
  - rewrite <- Ew.
    set (single := mkNode (String c1 "") 0).
    set (double := match rest1 with
                   | String c2 _ => mkNode (String c1 (String c2 "")) 0
                   | EmptyString => single
                   end).
    apply (size_at_most_two _ single double).
    intros t [Ht Hp]%built_child. simpl in Hp.
    assert (string_drop 0 w = String c1 rest1) as Hs by (by rewrite string_drop_0).
    destruct (is_tok_at _ _ _ _ _ _ Hs Ht Hp) as [->|(c2 & rest2 & -> & ->)];
      [by left|by right].
Qed.

Lemma built_lasts_bound symbols w : size (parents (built symbols w) None) ≤ 2.
Proof.
  set (n := String.length w).
  apply (size_at_most_two _ (mkNode (string_drop (n - 1) w) (n - 1))
                            (mkNode (string_drop (n - 2) w) (n - 2))).
  intros t [Ht He]%built_parent. simpl in He.
  pose proof (is_tok_sfx _ _ _ Ht) as Hs. rewrite He in Hs.
  rewrite (string_length_zero (string_drop (String.length w) w)),
    string_app_nil_r in Hs by (rewrite string_drop_length; lia).
  destruct Ht as [[Hl _] _]. destruct t as [v p]. unfold end_pos in He.
  simpl in *. fold n in He. rewrite <- Hs.
  destruct Hl as [Hl|Hl]; [left|right].
  - by replace p with (n - 1) by lia.
  - by replace p with (n - 2) by lia.
Qed.

(** C7.  Whatever the word, the graph has at most two firsts and at most
    two lasts: a first is the one- or the two-character prefix of the
    word, a last its one- or two-character suffix. *)
Theorem firsts_lasts_at_most_two symbols word :
  let g := build_spelling_graph symbols word Graph_init in
  size (firsts g).1 ≤ 2 ∧ size (lasts g).1 ≤ 2.
Proof.
  cbv zeta. fold (built symbols word). rewrite firsts_children, lasts_parents.
  split; [apply built_firsts_bound|apply built_lasts_bound].
Qed.

Lemma cached_spell_calls_spec (o : SetOrder) (keys : list (string * option (list string)))
    (cache : SpellCache) :
  (∀ key result, cache !! key = Some result → result = spell_args o key) →
  (cached_spell_calls o keys cache).1 = spell_args o <$> keys.
Proof.
  revert cache. induction keys as [|key keys IH]; intros cache Hc; [done|].
  simpl. unfold cached_spell at 1.
  destruct (cache !! key) as [result|] eqn:E.
  - specialize (IH cache Hc). destruct (cached_spell_calls o keys cache).
    simpl in *. f_equal; [by apply Hc|done].
  - specialize (IH (<[key := spell_args o key]> cache)).
    destruct (cached_spell_calls o keys _). simpl in *. f_equal. apply IH.
    intros k r. rewrite lookup_insert. case_decide; [|by apply Hc].
    subst k. by intros [= <-].
Qed.

(** C8.  Calls of the cached [spell], in any number and order, starting
    from the empty cache: every call returns what [spell] computes for its
    arguments, so two calls with the same arguments return equal results
    whatever was asked in between; and what [spell] computes for given
    symbols is a function of the word with its digits stripped, the same
    for every iteration order of the sets. *)
Theorem spell_deterministic (o : SetOrder) (keys : list (string * option (list string))) :
  (cached_spell_calls o keys ∅).1 = spell_args o <$> keys
  ∧ (∀ i j key ri rj,
       keys !! i = Some key → keys !! j = Some key →
       (cached_spell_calls o keys ∅).1 !! i = Some ri →
       (cached_spell_calls o keys ∅).1 !! j = Some rj → ri = rj)
  ∧ (∀ o' word word' symbols,
       strip_digits word = strip_digits word' →
       spell o word symbols = spell o' word' symbols).
Proof.
  assert ((cached_spell_calls o keys ∅).1 = spell_args o <$> keys) as H.
  { apply cached_spell_calls_spec. intros key result. by rewrite lookup_empty. }
  split_and!; [done| |].
  - intros i j key ri rj Hi Hj. rewrite H, !list_lookup_fmap, Hi, Hj. simpl.
    congruence.
  - intros o' word word' symbols Hw.
    rewrite (spell_order_irrelevant o o'). unfold spell. by rewrite Hw.
Qed.

(** C9.  A word that is empty once its digits are stripped, the empty
    string among them, is spelled by the empty list: the edge from the
    start to the end, [(None, None)], leaves the graph as it is, so the
    graph has neither firsts nor lasts. *)
Theorem spell_empty_word o word symbols :
  strip_digits word = "" →
  spell o word symbols = []
  ∧ (∀ g, add_edge None None g = g)
  ∧ (firsts (build_spelling_graph ELEMENTS (strip_digits word) Graph_init)).1 = ∅
  ∧ (lasts (build_spelling_graph ELEMENTS (strip_digits word) Graph_init)).1 = ∅.
Proof.
  intros H. split_and!.
  - rewrite (spell_order_irrelevant o elements_order).
    unfold spell. by rewrite H.
  - by intros [].
  - by rewrite H.
  - by rewrite H.
Qed.

Lemma spell_empty_word_witness :
  strip_digits "2024" = ""
  ∧ spell elements_order "2024" ELEMENTS = []
  ∧ spell elements_order "" ELEMENTS = [].
Proof.
  split_and!.
  - reflexivity.
  - apply (spell_empty_word elements_order "2024" ELEMENTS). reflexivity.
  - apply (spell_empty_word elements_order "" ELEMENTS). reflexivity.
Defined.

(** ** The molecular-mass scan *)

Lemma mass_loop_unroll formule i total_mass :
  PeriodicTable.mass_loop formule i total_mass =
    if decide (i < String.length formule) then
      match PeriodicTable.scan_count formule
              (PeriodicTable.scan_element formule i).2 with
      | inl e => inl e
      | inr (count, j) =>
          match PeriodicTable.mendeleev_table
                !! (PeriodicTable.scan_element formule i).1 with
          | None => inl (PeriodicTable.KeyError
                           (PeriodicTable.scan_element formule i).1)
          | Some info =>
              PeriodicTable.mass_loop formule (j + 1)
                (total_mass + PeriodicTable.relative_atomic_mass info * count)
          end
      end
    else inr total_mass.
Proof.
  funelim (PeriodicTable.mass_loop formule i total_mass); clear Heqcall;
    [by rewrite decide_False|rewrite decide_True by done..];
    match goal with
    | H : PeriodicTable.scan_count _ _ = _ |- _ => by rewrite H
    end.
Qed.

Lemma scanned_terms_unroll formule i :
  PeriodicTable.scanned_terms formule i =
    if decide (i < String.length formule) then
      match PeriodicTable.scan_count formule
              (PeriodicTable.scan_element formule i).2 with
      | inl e => [((PeriodicTable.scan_element formule i).1, inl e)]
      | inr (count, j) =>
          ((PeriodicTable.scan_element formule i).1, inr count)
          :: PeriodicTable.scanned_terms formule (j + 1)
      end
    else [].
Proof.
  funelim (PeriodicTable.scanned_terms formule i); clear Heqcall;
    [by rewrite decide_False|rewrite decide_True by done..];
    match goal with
    | H : PeriodicTable.scan_count _ _ = _ |- _ => by rewrite H
    end.
Qed.

(** The loop stops at the first element it reads that the table lacks,
    when the count of that element is one [int] accepts. *)
Lemma mass_loop_KeyError formule element count : ∀ n i total_mass,
  String.length formule - i < n →
  (element, inr count) ∈ PeriodicTable.scanned_terms formule i →
  PeriodicTable.mendeleev_table !! element = None →
  ∃ known e rest,
    PeriodicTable.scanned_elements formule i = known ++ e :: rest
    ∧ Forall (λ x, is_Some (PeriodicTable.mendeleev_table !! x)) known
    ∧ PeriodicTable.mendeleev_table !! e = None
    ∧ PeriodicTable.mass_loop formule i total_mass = inl (PeriodicTable.KeyError e).
Proof.
  unfold PeriodicTable.scanned_elements.
  induction n as [|n IH]; intros i total_mass Hn Hin Hnone; [lia|].
  rewrite scanned_terms_unroll in Hin |- *. rewrite mass_loop_unroll.
  destruct (decide (i < String.length formule)) as [Hlt|]; [|by apply elem_of_nil in Hin].
  pose proof (PeriodicTable.scan_element_le formule i) as H1.
  destruct (PeriodicTable.scan_count formule _) as [e0|[c j]] eqn:Ec.
  { apply list_elem_of_singleton in Hin. congruence. }
  pose proof (PeriodicTable.scan_count_le _ _ _ _ Ec) as H2.
  destruct (PeriodicTable.mendeleev_table !! (PeriodicTable.scan_element formule i).1)
    as [info|] eqn:E.
  - apply elem_of_cons in Hin as [Hin|Hin]; [congruence|].
    edestruct IH as (known & e & rest & Hs & Hk & He & Hl);
      [|exact Hin|exact Hnone|]; [lia|].
    exists ((PeriodicTable.scan_element formule i).1 :: known), e, rest.
    split_and!; [by rewrite fmap_cons, Hs|constructor; eauto|done|exact Hl].
  - exists [], (PeriodicTable.scan_element formule i).1. eexists.
    split_and!; [done|constructor|done|done].
Qed.

(** C10.  The table has the keys [H], [Li] and [Be] only.  When the scan
    of a formula reads an element symbol that is not a key, and reads the
    count of that symbol without [int] failing, then
    [calculate_relative_molecular_mass] ends in the [KeyError] of the
    lookup of the first symbol that is not a key, handed on by the handler
    as the loop raised it: the computation fails as a whole, nothing is
    skipped.  [get_relative_atomic_mass] returns [0] for a symbol that is
    not a key. *)
Theorem molecular_mass_unknown_element formule element count :
  (element, inr count) ∈ PeriodicTable.scanned_terms formule 0 →
  PeriodicTable.mendeleev_table !! element = None →
  dom PeriodicTable.mendeleev_table = {["H"; "Li"; "Be"]}
  ∧ (∃ known e rest,
       PeriodicTable.scanned_elements formule 0 = known ++ e :: rest
       ∧ Forall (λ x, is_Some (PeriodicTable.mendeleev_table !! x)) known
       ∧ PeriodicTable.mendeleev_table !! e = None
       ∧ PeriodicTable.mass_loop formule 0 0 = inl (PeriodicTable.KeyError e)
       ∧ PeriodicTable.calculate_relative_molecular_mass formule
         = inl (PeriodicTable.KeyError e))
  ∧ PeriodicTable.get_relative_atomic_mass element = 0%Z.
Proof.
  intros Hin Hnone. split_and!.
  - unfold PeriodicTable.mendeleev_table. rewrite !dom_insert_L, dom_empty_L.
    set_solver.
  - destruct (mass_loop_KeyError formule element count _ 0 0%Z
                (Nat.lt_succ_diag_r _) Hin Hnone)
      as (known & e & rest & Hs & Hk & He & Hl).
    exists known, e, rest. split_and!; try done.
    unfold PeriodicTable.calculate_relative_molecular_mass. by rewrite Hl.
  - unfold PeriodicTable.get_relative_atomic_mass. by rewrite Hnone.
Qed.

Lemma molecular_mass_unknown_element_witness :
  PeriodicTable.calculate_relative_molecular_mass "LiH2O"
  = inl (PeriodicTable.KeyError "O")
  ∧ PeriodicTable.get_relative_atomic_mass "O" = 0%Z.
Proof.
  assert (("O", inr 1%Z) ∈ PeriodicTable.scanned_terms "LiH2O" 0) as Hin.
  { vm_compute. do 2 right. left. }
  assert (PeriodicTable.mendeleev_table !! "O" = None) as Hnone by reflexivity.
  destruct (molecular_mass_unknown_element "LiH2O" "O" 1%Z Hin Hnone)
    as (_ & _ & H0).
  split; [by vm_compute|exact H0].
Defined.

(** The scan of [O] followed by a superscript two reads the symbol [O],
    which is not a key, and ends in the [ValueError] of [int] on the
    superscript: the count is read before the symbol is looked up. *)
Lemma molecular_mass_unknown_element_counterexample :
  "O" ∈ PeriodicTable.scanned_elements (String "O" (String "178" "")) 0
  ∧ PeriodicTable.mendeleev_table !! "O" = None
  ∧ PeriodicTable.calculate_relative_molecular_mass (String "O" (String "178" ""))
    = inl (PeriodicTable.ValueError (String "178" "")).
Proof. split_and!; [vm_compute; left|reflexivity|by vm_compute]. Qed.


(** * Further properties *)

(** ** find_all_paths on any graph *)

(** Every node of the list is followed by one of its children in the
    dictionary. *)
Definition linked (ptc : NodeDict) (q : list Node) : Prop :=
  ∀ i a b, q !! i = Some a → q !! S i = Some b → b ∈ default ∅ (ptc !! Some a).

Lemma linked_cons_inv ptc a q : linked ptc (a :: q) → linked ptc q.
Proof. intros H i x y Hx Hy. by apply (H (S i)). Qed.

Lemma linked_cons ptc a b q :
  b ∈ default ∅ (ptc !! Some a) → linked ptc (b :: q) → linked ptc (a :: b :: q).
Proof.
  intros Hab H [|i] x y Hx Hy; simpl in *.
  - by injection Hx as <-; injection Hy as <-.
  - by apply (H i).
Qed.

Lemma walk_linked ptc end_ path start q :
  walk ptc end_ path start q →
  linked ptc q ∧ NoDup q ∧ ∀ x, x ∈ q → x ≠ start → x ∉ path.
Proof.
  induction 1 as [path|path start node q Hne Hin Hnew Hw (Hl & Hnd & Hout)].
  - split_and!.
    + intros [|i] a b; simpl; [done|by rewrite lookup_nil].
    + apply NoDup_singleton.
    + intros x ->%list_elem_of_singleton. done.
  - destruct (walk_head _ _ _ _ _ Hw) as [q' ->]. split_and!.
    + by apply linked_cons.
    + apply NoDup_cons. split; [|done]. intros Hs.
      destruct (decide (start = node)) as [->|Hsn].
      { apply Hnew, elem_of_app. right. by left. }
      apply (Hout start Hs Hsn), elem_of_app. right. by left.
    + intros x [->|Hx]%elem_of_cons Hxs; [done|]. intros Hp.
      destruct (decide (x = node)) as [->|Hxn].
      { apply Hnew, elem_of_app. by left. }
      apply (Hout x Hx Hxn), elem_of_app. by left.
Qed.

Lemma linked_walk ptc end_ q : ∀ path start,
  head q = Some start → last q = Some end_ → linked ptc q → NoDup q →
  (∀ x, x ∈ q → x ≠ start → x ∉ path) →
  walk ptc end_ path start q.
Proof.
  induction q as [|a q IH]; intros path start Hh Hl Hlk Hnd Hout; [done|].
  injection Hh as ->. apply NoDup_cons in Hnd as [Ha Hnd].
  destruct q as [|b q].
  - injection Hl as ->. constructor.
  - assert (b ≠ start) as Hb by (intros ->; apply Ha; by left).
    apply walk_step with (node := b).
    + intros ->. apply Ha. apply last_Some_elem_of. exact Hl.
    + by apply (Hlk 0).
    + intros [Hp|Hp%list_elem_of_singleton]%elem_of_app; [|done].
      by apply (Hout b); [right; left|..].
    + apply IH; [done|done|by eapply linked_cons_inv|done|].
      intros x Hx Hxb [Hp|Hp%list_elem_of_singleton]%elem_of_app.
      * apply (Hout x); [by right| |done]. intros ->. by apply Ha.
      * subst x. by apply Ha.
Qed.

(** X1.  On any dictionary, [find_all_paths] returns exactly the simple
    paths from [start] to [end]: the lists that extend [path] by nodes
    linked parent to child, beginning with [start], ending with [end],
    without a repeated node and, [start] apart, without a node of [path];
    and it returns each of them once.  From the empty [path] these are all
    the lists that begin with [start], end with [end], are linked and
    repeat no node. *)
Theorem find_all_paths_simple_paths o ptc start end_ path p :
  (p ∈ find_all_paths o ptc start end_ path
   ↔ ∃ q, p = path ++ q ∧ head q = Some start ∧ last q = Some end_
          ∧ linked ptc q ∧ NoDup q ∧ ∀ x, x ∈ q → x ≠ start → x ∉ path)
  ∧ (p ∈ find_all_paths o ptc start end_ []
     ↔ head p = Some start ∧ last p = Some end_ ∧ linked ptc p ∧ NoDup p)
  ∧ NoDup (find_all_paths o ptc start end_ path).
Proof.
  assert (∀ path, p ∈ find_all_paths o ptc start end_ path
    ↔ ∃ q, p = path ++ q ∧ head q = Some start ∧ last q = Some end_
           ∧ linked ptc q ∧ NoDup q ∧ ∀ x, x ∈ q → x ≠ start → x ∉ path) as H.
  { intros path'. rewrite elem_of_find_all_paths. split.
    - intros (q & Hw & ->). exists q.
      destruct (walk_linked _ _ _ _ _ Hw) as (Hl & Hnd & Hout).
      destruct (walk_head _ _ _ _ _ Hw) as [q' ->].
      split_and!; [done|done|by eapply walk_last|done|done|done].
    - intros (q & -> & Hh & Hl & Hlk & Hnd & Hout). exists q.
      split; [|done]. by apply linked_walk. }
  split_and!; [apply H| |apply NoDup_find_all_paths].
  rewrite H. split.
  - by intros (q & -> & ? & ? & ? & ? & _).
  - intros (? & ? & ? & ?). exists p. split_and!; try done.
    intros x _ _ Hx. by apply elem_of_nil in Hx.
Qed.

(** ** spell, seen from its caller *)

Lemma isdigit_lower_char c : Py.isdigit (Py.lower_char c) = Py.isdigit c.
Proof. by destruct c as [[] [] [] [] [] [] [] []]. Qed.

Lemma without_digits_lower (word : string) :
  without_digits (Py.lower word) = Py.lower (without_digits word).
Proof.
  induction word as [|c s IH]; [done|]. simpl.
  rewrite isdigit_lower_char. destruct (Py.isdigit c); [done|].
  simpl. by rewrite IH.
Qed.

Lemma without_digits_app (a b : string) :
  without_digits (a +:+ b) = without_digits a +:+ without_digits b.
Proof.
  induction a as [|c a IH]; [done|]. rewrite string_app_cons. simpl.
  destruct (Py.isdigit c); [done|]. by rewrite string_app_cons, IH.
Qed.

Lemma join_app (s t : list string) : Py.join (s ++ t) = Py.join s +:+ Py.join t.
Proof.
  induction s as [|x s IH]; [done|]. simpl.
  by rewrite !join_cons, IH, string_app_assoc.
Qed.

(** The members of the result, for every word: the non-empty sequences of
    symbols of the table that concatenate, case-insensitively, to the
    stripped word. *)
Lemma elem_of_spell_symbols o word symbols spelling :
  spelling ∈ spell o word symbols
  ↔ spelling ≠ [] ∧ Forall (λ s, s ∈ ELEMENTS) spelling
    ∧ Py.lower (Py.join spelling) = Py.lower (strip_digits word).
Proof.
  rewrite elem_of_spell. split.
  - intros (glyphs & Hne & Hp & ->).
    destruct (proj1 (is_spelling_ELEMENTS (strip_digits word)
                       (Py.capitalize <$> glyphs))) as [HF HL];
      [by exists glyphs|].
    split_and!; [by destruct glyphs|done|done].
  - intros (Hne & Hs & Hl).
    destruct (proj2 (is_spelling_ELEMENTS (strip_digits word) spelling))
      as (glyphs & Hp & ->); [done|].
    exists glyphs. split_and!; [|done|done]. by destruct glyphs.
Qed.

(** Two results with the same members are the same list. *)
Lemma spell_ext o o' word word' symbols symbols' :
  (∀ s, s ∈ spell o word symbols ↔ s ∈ spell o' word' symbols') →
  spell o word symbols = spell o' word' symbols'.
Proof.
  intros H. rewrite !spell_all_paths. apply sorted_reverse_unique.
  apply NoDup_Permutation; [apply NoDup_rendered..|].
  intros s. specialize (H s).
  by rewrite !spell_all_paths, !elem_of_sorted_reverse in H.
Qed.

Lemma symbols_length_bounds (spelling : list string) :
  Forall (λ s, s ∈ ELEMENTS) spelling →
  length spelling ≤ String.length (Py.join spelling)
  ∧ String.length (Py.join spelling) ≤ 2 * length spelling.
Proof.
  pose proof ELEMENTS_canonical as Hcan. rewrite Forall_forall in Hcan.
  induction 1 as [|s spelling Hs _ IH]; [done|].
  rewrite join_cons, string_app_length. simpl.
  destruct (Hcan s Hs) as [Hl _]. lia.
Qed.

(** Two characters that are one character, or the upper-case and the
    lower-case form of one of the letters [A-Z]. *)
Definition same_letter (c c' : ascii) : Prop :=
  c = c'
  ∨ (Py.isupper c = true ∧ c' = Py.lower_char c)
  ∨ (Py.isupper c' = true ∧ c = Py.lower_char c').

(** Two words of one length that differ, position by position, in the
    case of letters [a-z], [A-Z] only. *)
Fixpoint differ_in_case_only (word word' : string) : Prop :=
  match word, word' with
  | EmptyString, EmptyString => True
  | String c r, String c' r' => same_letter c c' ∧ differ_in_case_only r r'
  | _, _ => False
  end.

Lemma differ_in_case_only_lower (word word' : string) :
  differ_in_case_only word word' → Py.lower word = Py.lower word'.
Proof.
  revert word'. induction word as [|c r IH]; intros [|c' r']; simpl; try done.
  intros [Hc Hr]. f_equal; [|by apply IH].
  destruct Hc as [-> | [[_ ->] | [_ ->]]]; by rewrite ?lower_char_idemp.
Qed.

(** X2.  [spell] does not see the case of the letters [a-z], [A-Z]: two
    words of one length that agree at every position, up to the case of
    such a letter, have the same spellings. *)
Theorem spell_case_insensitive o word word' symbols :
  differ_in_case_only word word' →
  spell o word symbols = spell o word' symbols.
Proof.
  intros H%differ_in_case_only_lower. apply spell_ext. intros s.
  rewrite !elem_of_spell_symbols.
  by rewrite !strip_digits_without_digits, <- !without_digits_lower, H.
Qed.

Lemma spell_case_insensitive_witness :
  spell elements_order "BaCoN" ELEMENTS = spell elements_order "bacon" ELEMENTS.
Proof.
  apply (spell_case_insensitive elements_order "BaCoN" "bacon").
  simpl. unfold same_letter.
  repeat split; first [by left | by right; left].
Defined.

(** X3.  Spellings concatenate: a spelling of one word followed by a
    spelling of another is a spelling of the two words joined. *)
Theorem spell_app o word1 word2 symbols spelling1 spelling2 :
  spelling1 ∈ spell o word1 symbols →
  spelling2 ∈ spell o word2 symbols →
  spelling1 ++ spelling2 ∈ spell o (word1 +:+ word2) symbols.
Proof.
  rewrite !elem_of_spell_symbols. intros (Hn1 & Hs1 & Hl1) (Hn2 & Hs2 & Hl2).
  split_and!.
  - by destruct spelling1.
  - by apply Forall_app.
  - by rewrite join_app, !strip_digits_without_digits, without_digits_app,
      !lower_app, Hl1, Hl2, !strip_digits_without_digits.
Qed.

Lemma spell_app_witness :
  ["Ba"; "Co"; "N"] ++ ["H"] ∈ spell elements_order ("bacon" +:+ "h") ELEMENTS.
Proof.
  apply (spell_app elements_order "bacon" "h" ELEMENTS).
  - rewrite spell_bacon. left.
  - rewrite spell_h. left.
Defined.

(** X4.  Every spelling returned is a non-empty tuple of symbols of the
    table, and it has at least half as many symbols as the stripped word
    has letters, and at most as many. *)
Theorem spell_symbols_count o word symbols spelling :
  spelling ∈ spell o word symbols →
  spelling ≠ [] ∧ Forall (λ s, s ∈ ELEMENTS) spelling
  ∧ length spelling ≤ String.length (strip_digits word)
  ∧ String.length (strip_digits word) ≤ 2 * length spelling.
Proof.
  rewrite elem_of_spell_symbols. intros (Hne & Hs & Hl).
  apply (f_equal String.length) in Hl. rewrite !lower_length in Hl.
  rewrite <- Hl. split_and!; [done|done|by apply symbols_length_bounds..].
Qed.

Lemma spell_symbols_count_witness :
  ["Ba"; "Co"; "N"] ≠ [] ∧ Forall (λ s, s ∈ ELEMENTS) ["Ba"; "Co"; "N"]
  ∧ length ["Ba"; "Co"; "N"] ≤ String.length (strip_digits "bacon")
  ∧ String.length (strip_digits "bacon") ≤ 2 * length ["Ba"; "Co"; "N"].
Proof.
  apply (spell_symbols_count elements_order "bacon" ELEMENTS).
  rewrite spell_bacon. left.
Defined.

Lemma cached_spell_calls_cache (o : SetOrder)
    (keys : list (string * option (list string))) (cache : SpellCache) :
  (∀ key result, cache !! key = Some result → result = spell_args o key) →
  dom (cached_spell_calls o keys cache).2 = dom cache ∪ list_to_set keys
  ∧ (∀ key result, (cached_spell_calls o keys cache).2 !! key = Some result →
                   result = spell_args o key).
Proof.
  revert cache. induction keys as [|key keys IH]; intros cache Hc.
  - simpl. split; [set_solver|done].
  - simpl. unfold cached_spell at 1 2.
    destruct (cache !! key) as [result|] eqn:E.
    + destruct (IH cache Hc) as [Hd Hs].
      destruct (cached_spell_calls o keys cache). simpl in *.
      split; [|done]. rewrite Hd.
      assert (key ∈ dom cache) by (apply elem_of_dom; eauto). set_solver.
    + destruct (IH (<[key := spell_args o key]> cache)) as [Hd Hs].
      { intros k r. rewrite lookup_insert. case_decide; [|by apply Hc].
        subst k. by intros [= <-]. }
      destruct (cached_spell_calls o keys _). simpl in *.
      split; [|done]. rewrite Hd, dom_insert_L. set_solver.
Qed.

(** X5.  After any sequence of calls from the empty cache, the cache
    holds the arguments that were called, no others, each with the result
    of [spell] for it; and calling [spell] again with one of them returns
    that result and leaves the cache as it is. *)
Theorem cache_after_calls (o : SetOrder)
    (keys : list (string * option (list string))) :
  let cache := (cached_spell_calls o keys ∅).2 in
  dom cache = list_to_set keys
  ∧ ∀ key, key ∈ keys →
      cache !! key = Some (spell_args o key)
      ∧ cached_spell o key cache = (spell_args o key, cache).
Proof.
  cbv zeta.
  destruct (cached_spell_calls_cache o keys ∅) as [Hd Hs].
  { intros key result. by rewrite lookup_empty. }
  rewrite dom_empty_L, (left_id_L ∅ (∪)) in Hd. split; [done|].
  intros key Hkey.
  assert (key ∈ dom (cached_spell_calls o keys ∅).2) as Hin
    by (rewrite Hd; by apply elem_of_list_to_set).
  apply elem_of_dom in Hin as [result Hr].
  pose proof (Hs key result Hr) as ->.
  split; [done|]. unfold cached_spell. by rewrite Hr.
Qed.

(** ** The molecular mass of a formula *)

(** The mass a term stands for. *)
Definition term_mass (term : string * (PeriodicTable.Exception + Z)) : Z :=
  match term.2 with
  | inr count => (PeriodicTable.get_relative_atomic_mass term.1 * count)%Z
  | inl _ => 0%Z
  end.

Definition terms_mass (terms : list (string * (PeriodicTable.Exception + Z))) : Z :=
  foldr (λ term total, (term_mass term + total)%Z) 0%Z terms.

(** A term the loop gets past: its symbol is a key of the table and its
    count is one [int] accepts. *)
Definition term_ok (term : string * (PeriodicTable.Exception + Z)) : Prop :=
  is_Some (PeriodicTable.mendeleev_table !! term.1) ∧ ∃ count, term.2 = inr count.

Lemma table_keys key info :
  PeriodicTable.mendeleev_table !! key = Some info →
  key = "H" ∨ key = "Li" ∨ key = "Be".
Proof.
  intros H. assert (key ∈ dom PeriodicTable.mendeleev_table) as Hd
    by (apply elem_of_dom; eauto).
  unfold PeriodicTable.mendeleev_table in Hd.
  rewrite !dom_insert_L, dom_empty_L in Hd. set_solver.
Qed.

Lemma table_mass_nonneg key info :
  PeriodicTable.mendeleev_table !! key = Some info →
  (0 ≤ PeriodicTable.relative_atomic_mass info)%Z.
Proof.
  intros H. destruct (table_keys _ _ H) as [-> | [-> | ->]];
    vm_compute in H; injection H as <-; simpl; lia.
Qed.

Lemma int_range c count : Py.int c = Some count → (0 ≤ count ≤ 9)%Z.
Proof.
  unfold Py.int, Py.isdigit. case_match eqn:E; [|done]. intros [= <-].
  revert E. rewrite andb_true_iff, !Nat.leb_le. lia.
Qed.

(** [int] accepts digits only, and a digit is not a lower-case letter. *)
Lemma int_isdigit c count :
  Py.int c = Some count → Py.str_isdigit c = true ∧ Py.str_islower c = false.
Proof.
  unfold Py.int. destruct (Py.isdigit c) eqn:E; [intros _|done].
  revert E. by destruct c as [[] [] [] [] [] [] [] []].
Qed.

Lemma str_isdigit_not_islower c :
  Py.str_isdigit c = true → Py.str_islower c = false.
Proof. by destruct c as [[] [] [] [] [] [] [] []]. Qed.

Lemma scan_count_range formule i count j :
  PeriodicTable.scan_count formule i = inr (count, j) → (0 ≤ count ≤ 9)%Z.
Proof.
  unfold PeriodicTable.scan_count. case_match; [|intros [= <- <-]; lia].
  destruct (Py.int _) eqn:E; [|done]. intros [= <- <-]. by eapply int_range.
Qed.

(** The only exception reading a count raises: the [ValueError] of [int]
    on a character that [isdigit] accepts and [int] does not. *)
Lemma scan_count_ValueError formule i e :
  PeriodicTable.scan_count formule i = inl e →
  ∃ c, e = PeriodicTable.ValueError (String c EmptyString)
       ∧ Py.str_isdigit c = true ∧ Py.int c = None.
Proof.
  unfold PeriodicTable.scan_count. case_match eqn:E; [|done].
  apply andb_true_iff in E as [_ E].
  destruct (Py.int _) eqn:Ei; [done|]. intros [= <-]. eauto.
Qed.

(** The loop on a formula whose terms are all read and known: the
    running total grows by the mass of every term. *)
Lemma mass_loop_total formule : ∀ n i total_mass,
  String.length formule - i < n →
  Forall term_ok (PeriodicTable.scanned_terms formule i) →
  PeriodicTable.mass_loop formule i total_mass
  = inr (total_mass + terms_mass (PeriodicTable.scanned_terms formule i))%Z
  ∧ (0 ≤ terms_mass (PeriodicTable.scanned_terms formule i))%Z.
Proof.
  induction n as [|n IH]; intros i total_mass Hn Hk; [lia|].
  rewrite scanned_terms_unroll in Hk |- *. rewrite mass_loop_unroll.
  destruct (decide (i < String.length formule)) as [Hlt|];
    [|simpl; split; [f_equal; lia|done]].
  pose proof (PeriodicTable.scan_element_le formule i).
  destruct (PeriodicTable.scan_count formule _) as [e|[count j]] eqn:Ec.
  { apply Forall_cons in Hk as [[_ [c Hc]] _]. done. }
  pose proof (PeriodicTable.scan_count_le _ _ _ _ Ec).
  pose proof (scan_count_range _ _ _ _ Ec).
  apply Forall_cons in Hk as [[[info Hi] _] Hk]. simpl in Hi. rewrite Hi.
  pose proof (table_mass_nonneg _ _ Hi).
  edestruct IH as [-> Hpos]; [|exact Hk|]; [lia|].
  simpl. unfold term_mass. simpl.
  unfold PeriodicTable.get_relative_atomic_mass. rewrite Hi.
  split; [f_equal; lia|nia].
Qed.

(** X6.  When every element symbol the scan reads is a key of the table
    and every count it reads is one [int] accepts,
    [calculate_relative_molecular_mass] returns the sum, over the terms
    read, of the atomic mass of the symbol times its count (one when no
    digit follows the symbol); the sum is never negative. *)
Theorem molecular_mass_total formule :
  Forall term_ok (PeriodicTable.scanned_terms formule 0) →
  PeriodicTable.calculate_relative_molecular_mass formule
  = inr (terms_mass (PeriodicTable.scanned_terms formule 0))
  ∧ (0 ≤ terms_mass (PeriodicTable.scanned_terms formule 0))%Z.
Proof.
  intros Hk.
  destruct (mass_loop_total formule _ 0 0%Z (Nat.lt_succ_diag_r _) Hk) as [Hl Hp].
  split; [|done].
  unfold PeriodicTable.calculate_relative_molecular_mass. by rewrite Hl.
Qed.

Lemma molecular_mass_total_witness :
  PeriodicTable.calculate_relative_molecular_mass "LiH2Be"
  = inr (terms_mass [("Li", inr 1%Z); ("H", inr 2%Z); ("Be", inr 1%Z)])
  ∧ (0 ≤ terms_mass [("Li", inr 1%Z); ("H", inr 2%Z); ("Be", inr 1%Z)])%Z.
Proof.
  assert (PeriodicTable.scanned_terms "LiH2Be" 0
          = [("Li", inr 1%Z); ("H", inr 2%Z); ("Be", inr 1%Z)])
    as <- by (by vm_compute).
  apply (molecular_mass_total "LiH2Be").
  assert (PeriodicTable.scanned_terms "LiH2Be" 0
          = [("Li", inr 1%Z); ("H", inr 2%Z); ("Be", inr 1%Z)])
    as -> by (by vm_compute).
  repeat constructor; by eexists.
Defined.

(** One turn of the loop, for a symbol the table knows. *)
Lemma mass_loop_step formule i total_mass element i1 count i2 info :
  i < String.length formule →
  PeriodicTable.scan_element formule i = (element, i1) →
  PeriodicTable.scan_count formule i1 = inr (count, i2) →
  PeriodicTable.mendeleev_table !! element = Some info →
  PeriodicTable.mass_loop formule i total_mass
  = PeriodicTable.mass_loop formule (i2 + 1)
      (total_mass + PeriodicTable.relative_atomic_mass info * count).
Proof.
  intros Hi He Hc Hk. rewrite mass_loop_unroll, decide_True by done.
  by rewrite He; simpl; rewrite Hc, Hk.
Qed.

(** What the loop raises at a digit where an element symbol is expected. *)
Definition digit_error (d : ascii) (e : PeriodicTable.Exception) : Prop :=
  (∃ key, e = PeriodicTable.KeyError key ∧ String.get 0 key = Some d)
  ∨ (∃ c, e = PeriodicTable.ValueError (String c EmptyString)
          ∧ Py.str_isdigit c = true ∧ Py.int c = None).

(** A digit where an element symbol is expected is taken for a symbol:
    its count is read, and when [int] accepts the count the digit is
    looked up, and is not a key. *)
Lemma mass_loop_digit_start formule i total_mass :
  i < String.length formule →
  Py.str_isdigit (PeriodicTable.char_at formule i) = true →
  ∃ e, PeriodicTable.mass_loop formule i total_mass = inl e
       ∧ digit_error (PeriodicTable.char_at formule i) e.
Proof.
  intros Hi Hd. rewrite mass_loop_unroll, decide_True by done.
  destruct (PeriodicTable.scan_count formule _) as [e|[count j]] eqn:Ec.
  { exists e. split; [done|]. right. by eapply scan_count_ValueError. }
  assert (String.get 0 (PeriodicTable.scan_element formule i).1
          = Some (PeriodicTable.char_at formule i)) as Hg.
  { unfold PeriodicTable.scan_element. by case_match. }
  destruct (PeriodicTable.mendeleev_table !! _) as [info|] eqn:E.
  - apply table_keys in E. exfalso.
    destruct E as [E | [E | E]]; rewrite E in Hg; injection Hg as Hg;
      by rewrite <- Hg in Hd.
  - eexists. split; [done|]. left. eauto.
Qed.

(** X7.  A count of two digits is not read as a number: after a known
    element symbol and a first digit, a second digit is taken for an
    element symbol, and [calculate_relative_molecular_mass] ends in an
    exception: the [KeyError] of a key that begins with that digit, or,
    when the character read as the count of that key is one [isdigit]
    accepts and [int] does not, the [ValueError] of [int] on it. *)
Theorem molecular_mass_two_digit_count element d1 d2 rest :
  is_Some (PeriodicTable.mendeleev_table !! element) →
  is_Some (Py.int d1) → Py.str_isdigit d2 = true →
  ∃ e, PeriodicTable.calculate_relative_molecular_mass
         (element +:+ String d1 (String d2 rest)) = inl e
       ∧ digit_error d2 e.
Proof.
  intros [info Hk] [count H1] H2.
  destruct (int_isdigit _ _ H1) as [D1 L1].
  unfold PeriodicTable.calculate_relative_molecular_mass.
  assert (∀ formule i total_mass,
            i < String.length formule →
            PeriodicTable.char_at formule i = d2 →
            ∃ e, match PeriodicTable.mass_loop formule i total_mass with
                 | inl e => inl e
                 | inr total => inr total
                 end = inl e ∧ digit_error d2 e) as Hsecond.
  { intros formule i total_mass Hi Hc.
    destruct (mass_loop_digit_start formule i total_mass) as (e & -> & Hg);
      [done|by rewrite Hc|]. exists e. by rewrite <- Hc. }
  destruct (table_keys _ _ Hk) as [-> | [-> | ->]].
  - rewrite (mass_loop_step _ 0 0%Z "H" 0 count 1 info);
      [|simpl; lia| | |done].
    + apply Hsecond; [simpl; lia|done].
    + unfold PeriodicTable.scan_element, PeriodicTable.char_at. simpl.
      by rewrite L1.
    + unfold PeriodicTable.scan_count, PeriodicTable.char_at. simpl.
      by rewrite D1, H1.
  - rewrite (mass_loop_step _ 0 0%Z "Li" 1 count 2 info);
      [|simpl; lia| | |done].
    + apply Hsecond; [simpl; lia|done].
    + done.
    + unfold PeriodicTable.scan_count, PeriodicTable.char_at. simpl.
      by rewrite D1, H1.
  - rewrite (mass_loop_step _ 0 0%Z "Be" 1 count 2 info);
      [|simpl; lia| | |done].
    + apply Hsecond; [simpl; lia|done].
    + done.
    + unfold PeriodicTable.scan_count, PeriodicTable.char_at. simpl.
      by rewrite D1, H1.
Qed.

Lemma molecular_mass_two_digit_count_witness :
  ∃ e, PeriodicTable.calculate_relative_molecular_mass
         ("H" +:+ String "1" (String "2" "O")) = inl e
       ∧ digit_error "2" e.
Proof.
  apply (molecular_mass_two_digit_count "H" "1" "2" "O");
    [by eexists|by eexists|reflexivity].
Defined.

(** A formula that can follow another without changing how the first is
    read: it is empty, or begins with a character that is neither a
    lower-case letter nor a digit. *)
Definition starts_clean (formule : string) : Prop :=
  match formule with
  | EmptyString => True
  | String c _ => Py.str_islower c = false ∧ Py.str_isdigit c = false
  end.

(** The two results of the scan of two formulas, put together: the first
    error ends the scan, else the masses add up. *)
Definition mass_then (r1 r2 : PeriodicTable.Exception + Z)
    : PeriodicTable.Exception + Z :=
  match r1, r2 with
  | inl e, _ => inl e
  | inr _, inl e => inl e
  | inr a, inr b => inr (a + b)%Z
  end.

Lemma char_at_app_l (f1 f2 : string) i :
  i < String.length f1 →
  PeriodicTable.char_at (f1 +:+ f2) i = PeriodicTable.char_at f1 i.
Proof.
  intros Hi. unfold PeriodicTable.char_at.
  by rewrite <- (String.append_correct1 f1 f2 i Hi).
Qed.

Lemma char_at_app_r (f1 f2 : string) j :
  PeriodicTable.char_at (f1 +:+ f2) (String.length f1 + j)
  = PeriodicTable.char_at f2 j.
Proof.
  unfold PeriodicTable.char_at.
  by rewrite (Nat.add_comm _ j), <- (String.append_correct2 f1 f2 j).
Qed.

Lemma char_at_head c (s : string) : PeriodicTable.char_at (String c s) 0 = c.
Proof. done. Qed.

Lemma scan_element_lt formule i :
  i < String.length formule → (PeriodicTable.scan_element formule i).2 < String.length formule.
Proof.
  intros Hi. unfold PeriodicTable.scan_element.
  destruct (i + 1 <? String.length formule) eqn:E; simpl; [|done].
  apply Nat.ltb_lt in E. case_match; simpl; lia.
Qed.

Lemma scan_count_lt formule i count j :
  i < String.length formule →
  PeriodicTable.scan_count formule i = inr (count, j) → j < String.length formule.
Proof.
  intros Hi. unfold PeriodicTable.scan_count.
  destruct (i + 1 <? String.length formule) eqn:E; simpl;
    [|by intros [= <- <-]].
  apply Nat.ltb_lt in E. repeat case_match; intros [= <- <-] || intros [=]; lia.
Qed.

(** What follows a formula at a clean start is not read with it. *)
Lemma next_char_app (f1 f2 : string) (test : ascii → bool) i :
  (match f2 with EmptyString => True | String c _ => test c = false end) →
  i < String.length f1 →
  (i + 1 <? String.length (f1 +:+ f2)) && test (PeriodicTable.char_at (f1 +:+ f2) (i + 1))
  = (i + 1 <? String.length f1) && test (PeriodicTable.char_at f1 (i + 1)).
Proof.
  intros Hc Hi. rewrite string_app_length.
  destruct (decide (i + 1 < String.length f1)) as [Hlt|Hge].
  - rewrite char_at_app_l by done.
    by rewrite !(proj2 (Nat.ltb_lt _ _)) by lia.
  - rewrite (proj2 (Nat.ltb_ge (i + 1) (String.length f1))) by lia. simpl.
    destruct f2 as [|c f2].
    + simpl. rewrite Nat.add_0_r.
      by rewrite (proj2 (Nat.ltb_ge (i + 1) (String.length f1))) by lia.
    + replace (i + 1) with (String.length f1 + 0) at 2 by lia.
      rewrite char_at_app_r, char_at_head, Hc. apply andb_false_r.
Qed.

Lemma scan_element_app_l (f1 f2 : string) i :
  starts_clean f2 → i < String.length f1 →
  PeriodicTable.scan_element (f1 +:+ f2) i = PeriodicTable.scan_element f1 i.
Proof.
  intros Hc Hi. unfold PeriodicTable.scan_element.
  rewrite (next_char_app f1 f2 Py.str_islower);
    [|by destruct f2 as [|c ?]; [|apply Hc]|done].
  rewrite char_at_app_l by done.
  destruct (decide (i + 1 < String.length f1)) as [Hlt|Hge].
  - by rewrite char_at_app_l.
  - by rewrite (proj2 (Nat.ltb_ge (i + 1) (String.length f1))) by lia.
Qed.

Lemma scan_count_app_l (f1 f2 : string) i :
  starts_clean f2 → i < String.length f1 →
  PeriodicTable.scan_count (f1 +:+ f2) i = PeriodicTable.scan_count f1 i.
Proof.
  intros Hc Hi. unfold PeriodicTable.scan_count.
  rewrite (next_char_app f1 f2 Py.str_isdigit);
    [|by destruct f2 as [|c ?]; [|apply Hc]|done].
  destruct (decide (i + 1 < String.length f1)) as [Hlt|Hge].
  - by rewrite char_at_app_l.
  - by rewrite (proj2 (Nat.ltb_ge (i + 1) (String.length f1))) by lia.
Qed.

Lemma scan_element_app_r (f1 f2 : string) j :
  PeriodicTable.scan_element (f1 +:+ f2) (String.length f1 + j)
  = ((PeriodicTable.scan_element f2 j).1,
     String.length f1 + (PeriodicTable.scan_element f2 j).2).
Proof.
  unfold PeriodicTable.scan_element.
  rewrite string_app_length, <- Nat.add_assoc, !char_at_app_r.
  replace (String.length f1 + (j + 1) <? String.length f1 + String.length f2)
    with (j + 1 <? String.length f2)
    by (destruct (Nat.ltb_spec (j + 1) (String.length f2));
        symmetry; [apply Nat.ltb_lt|apply Nat.ltb_ge]; lia).
  by case_match.
Qed.

Lemma scan_count_app_r (f1 f2 : string) j :
  PeriodicTable.scan_count (f1 +:+ f2) (String.length f1 + j)
  = match PeriodicTable.scan_count f2 j with
    | inl e => inl e
    | inr (count, k) => inr (count, String.length f1 + k)
    end.
Proof.
  unfold PeriodicTable.scan_count.
  rewrite string_app_length, <- Nat.add_assoc, !char_at_app_r.
  replace (String.length f1 + (j + 1) <? String.length f1 + String.length f2)
    with (j + 1 <? String.length f2)
    by (destruct (Nat.ltb_spec (j + 1) (String.length f2));
        symmetry; [apply Nat.ltb_lt|apply Nat.ltb_ge]; lia).
  by repeat case_match.
Qed.

Lemma calculate_mass_loop formule :
  PeriodicTable.calculate_relative_molecular_mass formule
  = PeriodicTable.mass_loop formule 0 0.
Proof.
  unfold PeriodicTable.calculate_relative_molecular_mass.
  by destruct (PeriodicTable.mass_loop formule 0 0).
Qed.

(** The total the loop starts from is carried along unchanged. *)
Lemma mass_loop_shift_total formule : ∀ n i total_mass,
  String.length formule - i < n →
  PeriodicTable.mass_loop formule i total_mass
  = mass_then (inr total_mass) (PeriodicTable.mass_loop formule i 0).
Proof.
  induction n as [|n IH]; intros i total_mass Hn; [lia|].
  rewrite !(mass_loop_unroll formule i).
  destruct (decide (i < String.length formule)) as [Hlt|];
    [|simpl; f_equal; lia].
  pose proof (PeriodicTable.scan_element_le formule i).
  destruct (PeriodicTable.scan_count formule _) as [e|[count j]] eqn:Ec; [done|].
  pose proof (PeriodicTable.scan_count_le _ _ _ _ Ec).
  destruct (PeriodicTable.mendeleev_table !! _) as [info|]; [|done].
  rewrite (IH _ (total_mass + _)%Z), (IH _ (0 + _)%Z) by lia.
  destruct (PeriodicTable.mass_loop formule _ 0); simpl; [done|].
  f_equal. lia.
Qed.

Lemma mass_loop_app_r (f1 f2 : string) : ∀ n j total_mass,
  String.length f2 - j < n →
  PeriodicTable.mass_loop (f1 +:+ f2) (String.length f1 + j) total_mass
  = PeriodicTable.mass_loop f2 j total_mass.
Proof.
  induction n as [|n IH]; intros j total_mass Hn; [lia|].
  rewrite (mass_loop_unroll (f1 +:+ f2)), (mass_loop_unroll f2).
  rewrite string_app_length, scan_element_app_r. simpl.
  rewrite scan_count_app_r.
  pose proof (PeriodicTable.scan_element_le f2 j).
  destruct (decide (j < String.length f2)) as [Hlt|Hge].
  - rewrite decide_True by lia.
    destruct (PeriodicTable.scan_count f2 _) as [e|[count k]] eqn:Ec; [done|].
    pose proof (PeriodicTable.scan_count_le _ _ _ _ Ec).
    destruct (PeriodicTable.mendeleev_table !! _) as [info|]; [|done].
    rewrite <- Nat.add_assoc. apply IH. lia.
  - by rewrite decide_False by lia.
Qed.

Lemma mass_loop_app_l (f1 f2 : string) :
  starts_clean f2 → ∀ n i total_mass,
  String.length f1 - i < n → i ≤ String.length f1 →
  PeriodicTable.mass_loop (f1 +:+ f2) i total_mass
  = match PeriodicTable.mass_loop f1 i total_mass with
    | inl e => inl e
    | inr total => PeriodicTable.mass_loop f2 0 total
    end.
Proof.
  intros Hc. induction n as [|n IH]; intros i total_mass Hn Hi; [lia|].
  destruct (decide (i = String.length f1)) as [->|Hne].
  - rewrite (mass_loop_unroll f1), decide_False by lia.
    rewrite <- (Nat.add_0_r (String.length f1)) at 1.
    by apply (mass_loop_app_r f1 f2 (S (String.length f2))); lia.
  - assert (i < String.length f1) as Hlt by lia.
    pose proof (PeriodicTable.scan_element_le f1 i).
    pose proof (scan_element_lt f1 i Hlt) as Hel.
    rewrite (mass_loop_unroll (f1 +:+ f2)), (mass_loop_unroll f1).
    rewrite string_app_length, scan_element_app_l by done.
    rewrite scan_count_app_l by done.
    rewrite !decide_True by lia.
    destruct (PeriodicTable.scan_count f1 _) as [e|[count j]] eqn:Ec; [done|].
    pose proof (PeriodicTable.scan_count_le _ _ _ _ Ec).
    pose proof (scan_count_lt _ _ _ _ Hel Ec).
    destruct (PeriodicTable.mendeleev_table !! _) as [info|]; [|done].
    apply IH; lia.
Qed.

(** X8.  The mass of two formulas written one after the other is the sum
    of their masses, and the first exception of the two scans is the
    exception of the whole, when the second formula is empty or begins
    with a character that is neither a lower-case letter nor a digit (so
    that it cannot be read as the end of the first). *)
Theorem molecular_mass_app formule1 formule2 :
  starts_clean formule2 →
  PeriodicTable.calculate_relative_molecular_mass (formule1 +:+ formule2)
  = mass_then (PeriodicTable.calculate_relative_molecular_mass formule1)
              (PeriodicTable.calculate_relative_molecular_mass formule2).
Proof.
  intros Hc. rewrite !calculate_mass_loop.
  rewrite (mass_loop_app_l formule1 formule2 Hc (S (String.length formule1)))
    by lia.
  destruct (PeriodicTable.mass_loop formule1 0 0) as [e|a]; [done|].
  by rewrite (mass_loop_shift_total formule2 (S (String.length formule2))) by lia.
Qed.

Lemma molecular_mass_app_witness :
  PeriodicTable.calculate_relative_molecular_mass ("Li" +:+ "H2")
  = mass_then (PeriodicTable.calculate_relative_molecular_mass "Li")
              (PeriodicTable.calculate_relative_molecular_mass "H2").
Proof. apply (molecular_mass_app "Li" "H2"). split; reflexivity. Defined.

(** ** The graph interface *)

(** The members of a set of keys that are not [None]. *)
Definition not_None (X : gset (option Node)) : gset Node :=
  list_to_set (omap id (elements X)).

(** [set(v for s in d.values() for v in s)] *)
Definition dict_values (d : NodeDict) : gset Node :=
  ⋃ (map_to_list d).*2.

(** [Graph.nodes(connected_only)] *)
Definition nodes (g : Graph) (connected_only : bool) : gset Node :=
  if connected_only then
    not_None (dom (_children_of g) ∪ dom (_parents_of g))
  else
    not_None (dom (_children_of g) ∪ dom (_parents_of g)
              ∪ set_map Some (dict_values (_children_of g))
              ∪ set_map Some (dict_values (_parents_of g))).

(** The graphs the interface makes: from [Graph()], by [add_edge],
    [firsts] and [lasts]. *)
Inductive made : Graph → Prop :=
| made_init : made Graph_init
| made_add_edge parent child g : made g → made (add_edge parent child g)
| made_firsts g : made g → made (firsts g).2
| made_lasts g : made g → made (lasts g).2.

Lemma elem_of_not_None X n : n ∈ not_None X ↔ Some n ∈ X.
Proof.
  unfold not_None. rewrite elem_of_list_to_set, list_elem_of_omap. split.
  - intros ([m|] & Hm & [= ->]). by apply elem_of_elements.
  - intros H. exists (Some n). by rewrite elem_of_elements.
Qed.

Lemma elem_of_dict_values (d : NodeDict) n :
  n ∈ dict_values d ↔ ∃ k, n ∈ default ∅ (d !! k).
Proof.
  unfold dict_values. rewrite elem_of_union_list. split.
  - intros (X & HX & Hn). apply list_elem_of_fmap in HX as ([k s] & -> & Hks).
    apply elem_of_map_to_list in Hks. exists k. by rewrite Hks.
  - intros (k & Hn). destruct (d !! k) as [s|] eqn:E; [|set_solver].
    exists s. split; [|done]. apply list_elem_of_fmap. exists (k, s).
    split; [done|]. by apply elem_of_map_to_list.
Qed.

Lemma elem_of_nodes_connected g n :
  n ∈ nodes g true
  ↔ is_Some (_children_of g !! Some n) ∨ is_Some (_parents_of g !! Some n).
Proof.
  unfold nodes. by rewrite elem_of_not_None, elem_of_union, !elem_of_dom.
Qed.

Lemma elem_of_nodes_all g n :
  n ∈ nodes g false
  ↔ is_Some (_children_of g !! Some n) ∨ is_Some (_parents_of g !! Some n)
    ∨ (∃ k, n ∈ children g k) ∨ (∃ k, n ∈ parents g k).
Proof.
  unfold nodes, children, parents.
  rewrite elem_of_not_None, !elem_of_union, !elem_of_dom, !elem_of_map.
  setoid_rewrite elem_of_dict_values. naive_solver.
Qed.

(** What the interface keeps true of a graph: the two dictionaries hold
    the same edges between nodes, and no node is a key of an empty set. *)
Record graph_ok (g : Graph) : Prop := mkGraphOk {
  ok_mirror : ∀ p c, p ∈ parents g (Some c) ↔ c ∈ children g (Some p);
  ok_children_key : ∀ n s, _children_of g !! Some n = Some s → s ≠ ∅;
  ok_parents_key : ∀ n s, _parents_of g !! Some n = Some s → s ≠ ∅
}.

Lemma dd_add_key_nonempty (k : option Node) (v : Node) (d : NodeDict) n s :
  (∀ s', d !! Some n = Some s' → s' ≠ ∅) →
  dd_add k v d !! Some n = Some s → s ≠ ∅.
Proof.
  unfold dd_add. intros Hd. rewrite lookup_insert. case_decide; [|apply Hd].
  intros [= <-]. set_solver.
Qed.

Lemma made_ok g : made g → graph_ok g.
Proof.
  induction 1 as [|p c g _ [Hm Hc Hp]|g _ [Hm Hc Hp]|g _ [Hm Hc Hp]].
  - split; unfold children, parents; simpl; intros; [set_solver|done|done].
  - split.
    + intros p' c'. rewrite elem_of_parents_add_edge, elem_of_children_add_edge, Hm.
      naive_solver.
    + intros n s. unfold add_edge. destruct c as [c|], p as [p|]; simpl;
        try apply Hc; apply dd_add_key_nonempty; apply Hc.
    + intros n s. unfold add_edge. destruct c as [c|], p as [p|]; simpl;
        try apply Hp; apply dd_add_key_nonempty; apply Hp.
  - split.
    + intros p c. by rewrite children_firsts, parents_firsts.
    + intros n s. unfold firsts, dd_get. simpl.
      rewrite lookup_insert_ne by done. apply Hc.
    + done.
  - split.
    + intros p c. rewrite children_lasts. unfold parents, lasts, dd_get. simpl.
      rewrite lookup_insert_ne by done. apply Hm.
    + done.
    + intros n s. unfold lasts, dd_get. simpl.
      rewrite lookup_insert_ne by done. apply Hp.
Qed.

Lemma dd_add_idemp (k : option Node) (v : Node) (d : NodeDict) :
  dd_add k v (dd_add k v d) = dd_add k v d.
Proof.
  unfold dd_add. rewrite lookup_insert_eq, insert_insert_eq. simpl.
  f_equal. set_solver.
Qed.

Lemma dd_add_comm (k k' : option Node) (v v' : Node) (d : NodeDict) :
  dd_add k v (dd_add k' v' d) = dd_add k' v' (dd_add k v d).
Proof.
  unfold dd_add. destruct (decide (k = k')) as [->|Hne].
  - rewrite !lookup_insert_eq, !insert_insert_eq. simpl. f_equal. set_solver.
  - rewrite !lookup_insert_ne by done. by apply insert_insert_ne.
Qed.

(** X9.  [add_edge] and [edges]: after an edge is added, [edges] lists
    it when its child is a node, together with the edges listed before
    and no other; an edge to the end of the word ([None] as child) is not
    listed by [edges]; adding an edge twice is adding it once; and two
    edges can be added in either order. *)
Theorem add_edge_edges parent child g :
  (∀ k x, (k, x) ∈ edges (add_edge parent child g)
          ↔ (k, x) ∈ edges g ∨ (k = parent ∧ child = Some x))
  ∧ edges (add_edge parent None g) = edges g
  ∧ add_edge parent child (add_edge parent child g) = add_edge parent child g
  ∧ ∀ parent' child',
      add_edge parent child (add_edge parent' child' g)
      = add_edge parent' child' (add_edge parent child g).
Proof.
  split_and!.
  - intros k x. by rewrite !elem_of_edges, elem_of_children_add_edge.
  - unfold edges, add_edge. by destruct parent.
  - unfold add_edge. destruct parent as [p|], child as [c|]; simpl;
      by rewrite ?dd_add_idemp.
  - intros parent' child'. unfold add_edge.
    destruct parent as [p|], child as [c|], parent' as [p'|], child' as [c'|];
      simpl; try done; f_equal; apply dd_add_comm.
Qed.

(** X10.  In every graph made through the interface the two
    dictionaries hold the same edges between nodes: a node is among the
    parents of another exactly when that one is among its children. *)
Theorem graph_dictionaries_mirror g p c :
  made g → p ∈ parents g (Some c) ↔ c ∈ children g (Some p).
Proof. intros Hg. apply (ok_mirror _ (made_ok g Hg)). Qed.

Lemma graph_dictionaries_mirror_witness :
  mkNode "n" 0 ∈ parents (add_edge (Some (mkNode "n" 0)) (Some (mkNode "o" 1))
                            Graph_init) (Some (mkNode "o" 1))
  ↔ mkNode "o" 1 ∈ children (add_edge (Some (mkNode "n" 0)) (Some (mkNode "o" 1))
                               Graph_init) (Some (mkNode "n" 0)).
Proof. apply graph_dictionaries_mirror. repeat constructor. Defined.

(** The two node sets of a graph made through the interface, by the
    edges. *)
Lemma elem_of_nodes_made g n :
  made g →
  (n ∈ nodes g true
   ↔ (∃ c, c ∈ children g (Some n)) ∨ (∃ p, p ∈ parents g (Some n)))
  ∧ (n ∈ nodes g false ↔ (∃ k, n ∈ children g k) ∨ (∃ k, n ∈ parents g k))
  ∧ (n ∈ nodes g true → n ∈ nodes g false).
Proof.
  intros [Hm Hc Hp]%made_ok.
  assert (∀ d : NodeDict, (∀ s, d !! Some n = Some s → s ≠ ∅) →
            is_Some (d !! Some n) ↔ ∃ x, x ∈ default ∅ (d !! Some n)) as Hkey.
  { intros d Hd. split.
    - intros [s Hs]. rewrite Hs. simpl. apply set_choose_L. by eapply Hd.
    - intros [x Hx]. destruct (d !! Some n); [eauto|set_solver]. }
  assert (n ∈ nodes g true
          ↔ (∃ c, c ∈ children g (Some n)) ∨ (∃ p, p ∈ parents g (Some n))) as H1.
  { rewrite elem_of_nodes_connected.
    by rewrite (Hkey (_children_of g) (Hc n)), (Hkey (_parents_of g) (Hp n)). }
  assert (n ∈ nodes g false
          ↔ (∃ k, n ∈ children g k) ∨ (∃ k, n ∈ parents g k)) as H2.
  { rewrite elem_of_nodes_all.
    rewrite (Hkey (_children_of g) (Hc n)), (Hkey (_parents_of g) (Hp n)).
    split; [|naive_solver].
    intros [[c Hx]|[[p Hx]|H]]; [| |done].
    - right. exists (Some c). by apply Hm.
    - left. exists (Some p). by apply Hm. }
  split_and!; [done|done|]. rewrite H1, H2.
  intros [[c Hx]|[p Hx]].
  - right. exists (Some c). by apply Hm.
  - left. exists (Some p). by apply Hm.
Qed.

(** X11.  In a graph made through the interface, [nodes()] (connected
    only) is the set of the nodes that have a child node or a parent node,
    and [nodes(connected_only=False)] the set of the nodes on some edge,
    the edges from the start and to the end of the word included: the
    first holds fewer nodes, and leaves out the nodes whose only neighbours
    are the start and the end. *)
Theorem nodes_connected_only g n :
  made g →
  (n ∈ nodes g true
   ↔ (∃ c, c ∈ children g (Some n)) ∨ (∃ p, p ∈ parents g (Some n)))
  ∧ (n ∈ nodes g false ↔ (∃ k, n ∈ children g k) ∨ (∃ k, n ∈ parents g k))
  ∧ (n ∈ nodes g true → n ∈ nodes g false).
Proof. apply elem_of_nodes_made. Qed.

Lemma nodes_connected_only_witness :
  let h := mkNode "h" 0 in
  let g := add_edge (Some h) None (add_edge None (Some h) Graph_init) in
  (h ∈ nodes g true
   ↔ (∃ c, c ∈ children g (Some h)) ∨ (∃ p, p ∈ parents g (Some h)))
  ∧ (h ∈ nodes g false ↔ (∃ k, h ∈ children g k) ∨ (∃ k, h ∈ parents g k))
  ∧ (h ∈ nodes g true → h ∈ nodes g false).
Proof. apply nodes_connected_only. repeat constructor. Defined.

(** ** The graph of a word, as a whole *)

(** [pop_root] changes the graph by [add_edge] only, from a previous root
    that is admissible and to roots that are admissible from then on. *)
Lemma pop_root_preserves symbols (Good : Graph → Prop)
    (Adm : option Node → Graph → Prop) :
  (∀ prev g, Good g → Adm prev g → Good (add_edge prev None g)) →
  (∀ prev r g, Good g → Adm prev g →
     Good (add_edge prev (Some r) g) ∧ Adm (Some r) (add_edge prev (Some r) g)) →
  (∀ x p c g, Adm x g → Adm x (add_edge p c g)) →
  ∀ n remaining position prev b,
    String.length remaining < n → Good (graph b) → Adm prev (graph b) →
    Good (graph (pop_root symbols remaining position prev b))
    ∧ ∀ x, Adm x (graph b) →
           Adm x (graph (pop_root symbols remaining position prev b)).
Proof.
  intros Hend Hroot Hmono. induction n as [|n IH]; [lia|].
  assert (∀ rec root remaining prev b,
    (∀ b', Good (graph b') → Adm (Some root) (graph b') →
       Good (graph (rec b')) ∧ ∀ x, Adm x (graph b') → Adm x (graph (rec b'))) →
    Good (graph b) → Adm prev (graph b) →
    Good (graph (try_root symbols rec root remaining prev b))
    ∧ ∀ x, Adm x (graph b) →
           Adm x (graph (try_root symbols rec root remaining prev b))) as Htry.
  { intros rec root remaining prev b Hrec Hg Ha. unfold try_root.
    destruct (decide (Py.capitalize (value root) ∈ symbols)); [|done].
    cbv zeta. destruct (Hroot prev root _ Hg Ha) as [Hg1 Ha1].
    destruct (decide (remaining ∉ processed _)).
    - destruct (Hrec (on_graph (add_edge prev (Some root)) b) Hg1 Ha1)
        as [Hg2 Hm2].
      split; [done|]. intros x Hx. apply Hm2. simpl. by apply Hmono.
    - split; [done|]. intros x Hx. simpl. by apply Hmono. }
  intros [|c1 rest1] position prev b Hn Hg Ha.
  - simpl. split; [by apply Hend|]. intros x Hx. by apply Hmono.
  - rewrite pop_root_cons. cbv zeta. simpl in Hn.
    set (b1 := try_root symbols _ _ (String c1 rest1) prev b).
    assert (Good (graph b1) ∧ ∀ x, Adm x (graph b) → Adm x (graph b1)) as [Hg1 Hm1].
    { apply Htry; [|done|done]. intros b' ? ?. apply IH; [lia|done|done]. }
    destruct rest1 as [|c2 rest2]; [done|].
    simpl in Hn. simpl.
    set (b2 := try_root symbols _ _ _ prev b1).
    assert (Good (graph b2) ∧ ∀ x, Adm x (graph b1) → Adm x (graph b2)) as [Hg2 Hm2].
    { apply Htry; [|done|by apply Hm1]. intros b' ? ?. apply IH; [lia|done|done]. }
    split; [done|]. intros x Hx. by apply Hm2, Hm1.
Qed.

Lemma built_made symbols w : made (built symbols w).
Proof.
  unfold built, build_spelling_graph.
  apply (pop_root_preserves symbols made (λ _ _, True)
           (λ _ g Hg _, made_add_edge _ _ g Hg)
           (λ prev r g Hg _, conj (made_add_edge prev (Some r) g Hg) I)
           (λ _ _ _ _ _, I) (S (String.length w)));
    [lia|constructor|done].
Qed.

(** Every node that has an edge of its own is itself the child of some
    key. *)
Definition rooted (g : Graph) : Prop :=
  (∀ p c, c ∈ children g (Some p) → ∃ k, p ∈ children g k)
  ∧ (∀ k x, x ∈ parents g k → ∃ k', x ∈ children g k').

Definition in_graph (prev : option Node) (g : Graph) : Prop :=
  match prev with
  | None => True
  | Some p => ∃ k, p ∈ children g k
  end.

Lemma built_rooted symbols w : rooted (built symbols w).
Proof.
  unfold built, build_spelling_graph.
  apply (pop_root_preserves symbols rooted in_graph) with (n := S (String.length w));
    [| | |lia| |done].
  - intros prev g [H1 H2] Ha. split.
    + intros p c [Hc|[_ [=]]]%elem_of_children_add_edge.
      destruct (H1 p c Hc) as [k Hk]. exists k.
      apply elem_of_children_add_edge. by left.
    + intros k x Hx.
      assert (∃ k', x ∈ children g k') as [k' Hk'].
      { apply elem_of_parents_add_edge in Hx as [Hx|[-> ->]]; [by eapply H2|done]. }
      exists k'. apply elem_of_children_add_edge. by left.
  - intros prev r g [H1 H2] Ha.
    assert (∀ x, (∃ k, x ∈ children g k) →
                 ∃ k, x ∈ children (add_edge prev (Some r) g) k) as Hup.
    { intros x [k Hk]. exists k. apply elem_of_children_add_edge. by left. }
    split; [split|].
    + intros p c [Hc|[<- _]]%elem_of_children_add_edge; apply Hup; [by eapply H1|done].
    + intros k x [Hx|[_ ->]]%elem_of_parents_add_edge; apply Hup; [by eapply H2|done].
    + exists prev. apply elem_of_children_add_edge. by right.
  - intros [x|] p c g; [|done]. intros [k Hk]. exists k.
    apply elem_of_children_add_edge. by left.
  - split; unfold children, parents; simpl; intros; set_solver.
Qed.

(** [s[:n]] *)
Fixpoint string_take (n : nat) (s : string) : string :=
  match n, s with
  | S n, String c r => String c (string_take n r)
  | _, _ => EmptyString
  end.

Lemma string_take_app (a b : string) : string_take (String.length a) (a +:+ b) = a.
Proof.
  induction a as [|c a IH]; [by destruct b|].
  rewrite string_app_cons. simpl. by rewrite IH.
Qed.

(** The nodes a word can have: at every offset, the glyph of one and the
    glyph of two characters. *)
Definition candidates (w : string) : list Node :=
  p ← seq 0 (String.length w);
  [mkNode (string_take 1 (string_drop p w)) p;
   mkNode (string_take 2 (string_drop p w)) p].

Lemma candidates_length w : length (candidates w) = 2 * String.length w.
Proof.
  unfold candidates. rewrite <- (length_seq (String.length w) 0) at 2.
  generalize (seq 0 (String.length w)).
  intros l. induction l as [|p l IH]; [done|].
  rewrite bind_cons, length_app, IH. simpl. lia.
Qed.

Lemma size_list_to_set_le (l : list Node) :
  size (list_to_set l : gset Node) ≤ length l.
Proof.
  induction l as [|x l IH]; [done|].
  rewrite list_to_set_cons, size_union_alt, size_singleton. simpl.
  assert (size ((list_to_set l : gset Node) ∖ {[x]}) ≤ size (list_to_set l : gset Node))
    by (apply subseteq_size; set_solver).
  lia.
Qed.

Section whole_graph.
Variable symbols : list string.
Variable w : string.

Local Abbreviation N := (String.length w).
Local Abbreviation tok := (is_tok symbols w).
Local Abbreviation G := (built symbols w).
Local Abbreviation chain_of := (chain symbols w).

Lemma is_tok_candidate t : tok t → t ∈ candidates w.
Proof.
  intros Ht. pose proof (is_tok_lt _ _ _ Ht) as Hlt.
  destruct Ht as [[Hl _] [r Hr]]. unfold candidates.
  apply list_elem_of_bind. exists (position t).
  split; [|apply elem_of_seq; lia].
  rewrite Hr. destruct t as [v p]. cbn [value position] in *.
  destruct Hl as [Hl|Hl].
  - rewrite <- Hl at 1. rewrite string_take_app. left.
  - rewrite <- Hl. rewrite string_take_app. right. left.
Qed.

Lemma chain_snoc p q e t :
  chain_of p q e → tok t → position t = e → chain_of p (q ++ [t]) (end_pos t).
Proof.
  revert p. induction q as [|x q IH]; intros p; simpl.
  - intros -> Ht Hp. done.
  - intros (Hx & Hpx & Hq) Ht Hp. split_and!; [done|done|by apply IH].
Qed.

Lemma chain_snoc_inv p q e t :
  chain_of p (q ++ [t]) e → tok t ∧ e = end_pos t.
Proof.
  revert p. induction q as [|x q IH]; intros p; simpl.
  - by intros (Ht & _ & <-).
  - intros (_ & _ & Hq). by eapply IH.
Qed.

(** Every node with an edge stands at the end of a chain of tokens from
    the start of the word. *)
Lemma built_reachable : ∀ n t k,
  position t < n → t ∈ children G k → ∃ q, chain_of 0 (q ++ [t]) (end_pos t).
Proof.
  induction n as [|n IH]; intros t k Hn Ht; [lia|].
  destruct (built_child _ _ _ _ Ht) as [Htok Hprev].
  destruct k as [p|]; simpl in Hprev.
  - destruct Hprev as [Hp He].
    destruct (proj1 (built_rooted symbols w) p t Ht) as [k' Hk'].
    pose proof (is_tok_pos_lt _ _ _ Hp).
    destruct (IH p k') as [q Hq]; [lia|done|].
    exists (q ++ [p]). by apply (chain_snoc 0 (q ++ [p]) (end_pos p)).
  - exists []. simpl. done.
Qed.

(** Every token at the end of a chain from the start of the word has an
    edge. *)
Lemma chain_in_graph q : ∀ t0 k e x,
  t0 ∈ children G k → chain_of (position t0) (t0 :: q) e → x ∈ t0 :: q →
  ∃ k', x ∈ children G k'.
Proof.
  induction q as [|u q IH]; intros t0 k e x Ht0 Hc Hx.
  - apply list_elem_of_singleton in Hx as ->. eauto.
  - apply elem_of_cons in Hx as [->|Hx]; [eauto|].
    destruct Hc as (Ht & _ & Hq). pose proof Hq as (Hu & Hpu & _).
    destruct (built_closed _ _ _ _ Ht0) as [Hnext _].
    apply (IH u (Some t0) e); [by apply Hnext| |done].
    by rewrite Hpu.
Qed.

Lemma reachable_in_graph q t e :
  chain_of 0 (q ++ [t]) e → ∃ k, t ∈ children G k.
Proof.
  intros Hc. destruct (q ++ [t]) as [|t0 q'] eqn:E; [by destruct q|].
  pose proof Hc as (Ht0 & Hp0 & _).
  apply (chain_in_graph q' t0 None e).
  - by apply built_first.
  - by rewrite Hp0.
  - rewrite <- E. apply elem_of_app. right. left.
Qed.

Lemma elem_of_built_nodes t :
  t ∈ nodes G false ↔ ∃ k, t ∈ children G k.
Proof.
  destruct (elem_of_nodes_made G t (built_made symbols w)) as (_ & H & _).
  rewrite H. split; [|eauto].
  intros [?|[k Hk]]; [done|]. by apply (proj2 (built_rooted symbols w) k).
Qed.
End whole_graph.

(** X12.  The nodes of the graph [build_spelling_graph] makes, all of
    them ([nodes(connected_only=False)]), are exactly the tokens of the
    word that can be reached: the valid tokens that end a chain of
    adjacent valid tokens from the start of the word, whether or not the
    chain can be continued to the end of the word. *)
Theorem built_nodes_reachable symbols word t :
  t ∈ nodes (build_spelling_graph symbols word Graph_init) false
  ↔ ∃ q, chain symbols word 0 (q ++ [t]) (end_pos t).
Proof.
  fold (built symbols word). rewrite elem_of_built_nodes. split.
  - intros [k Hk].
    apply (built_reachable symbols word (S (position t)) t k); [lia|done].
  - intros [q Hq]. by eapply reachable_in_graph.
Qed.

(** X13.  The firsts of the graph of a word are exactly the valid tokens
    at the start of the word, and its lasts exactly the reachable tokens
    that end where the word ends. *)
Theorem built_firsts_lasts symbols word t :
  let g := build_spelling_graph symbols word Graph_init in
  (t ∈ (firsts g).1 ↔ is_tok symbols word t ∧ position t = 0)
  ∧ (t ∈ (lasts g).1
     ↔ ∃ q, chain symbols word 0 (q ++ [t]) (String.length word)).
Proof.
  cbv zeta. fold (built symbols word). rewrite firsts_children, lasts_parents.
  split; split.
  - apply built_child.
  - intros [Ht Hp]. by apply built_first.
  - intros Ht. destruct (built_parent _ _ _ _ Ht) as [Htok He]. simpl in He.
    destruct (proj2 (built_rooted symbols word) None t Ht) as [k Hk].
    rewrite <- He.
    apply (built_reachable symbols word (S (position t)) t k); [lia|done].
  - intros [q Hq]. destruct (chain_snoc_inv _ _ _ _ _ _ Hq) as [_ He].
    destruct (reachable_in_graph _ _ _ _ _ Hq) as [k Hk].
    by apply (built_closed _ _ _ _ Hk).
Qed.

(** X14.  The graph of a word has at most twice as many nodes as the
    word has characters. *)
Theorem built_nodes_bound symbols word :
  size (nodes (build_spelling_graph symbols word Graph_init) false)
  ≤ 2 * String.length word.
Proof.
  fold (built symbols word). rewrite <- candidates_length.
  etrans; [|apply size_list_to_set_le]. apply subseteq_size.
  intros t [k Hk]%elem_of_built_nodes. apply elem_of_list_to_set.
  apply (is_tok_candidate symbols). by eapply built_child.
Qed.
